(** * The Node.py runtime: resolve, cache and load pipeline

    A shallow embedding of [src/nodepy/context.py]: the [Require] facade
    ([__call__], [resolve], [try_]) and the [Context] engine ([resolve],
    [load_module]).  Python objects live in a store indexed by references,
    dictionaries are finite maps, exceptions are an explicit outcome, and
    the re-entrancy of [require] calls issued by a module body is bounded
    by a fuel argument. *)

From Stdlib Require Import ZArith.
From stdpp Require Import gmap strings list fin_maps.

Local Open Scope string_scope.
Local Open Scope list_scope.

(** ** Data model *)

(** References to [Module] objects and to [Require] objects.  Python's
    [is] on two modules is equality of their references. *)
Abbreviation ref := nat (only parsing).
Abbreviation fref := nat (only parsing).

(** [base.Request(context, directory, string, additional_search_path)];
    there is a single context, so the back-reference is left out. *)
Record Request := mkRequest {
  req_directory : string;
  req_string : string;
  req_search_path : list string
}.

(** The messages of the four [RuntimeError]s raised by [context.py]. *)
Inductive runtime_msg :=
| NonModuleObject          (* '{!r} returned non-Module object {!r}' *)
| NewModuleBesidesExisting (* 'returned new Module object besides an existing entry in the cache' *)
| NotInModules (m : ref)   (* '{!r} can not be loaded when not in Context.modules' *)
| StackCorrupted.          (* 'Context.module_stack corrupted' *)

Inductive exn :=
| ResolveError (request : Request) (search_paths : list string)
| RuntimeError (msg : runtime_msg)
| ValueError (msg : string)
| AssertionError
| KeyError (key : string)
| IndexError
| BodyError (tag : nat).   (* anything else a loader or a module body raises *)

(** Python values handed back by [require]: a module's namespace object and
    the module object itself are references into the store. *)
Inductive value :=
| VNone
| VInt (z : Z)
| VStr (s : string)
| VNamespace (m : ref)
| VModule (m : ref).

(** [exports = None] is the [NotImplemented] sentinel a [Module] starts
    with; [exception] holds the stored [sys.exc_info()]. *)
Record ModuleObj := mkModule {
  filename : string;
  loaded : bool;
  exception : option exn;
  exports : option value;
  namespace : gmap string value
}.

(** A [Require] object: [directory], [path] and its own [cache] keyed by
    request string. *)
Record RequireObj := mkRequire {
  directory : string;
  path : list string;
  cache : gmap string ref
}.

(** The mutable state of one [Context] together with the objects it
    refers to.  Every reference denotes a [Module] object: [context.py]
    creates none itself, and a resolver that mints a new module hands out
    a reference nobody held before.  The head of [module_stack] is the
    top of the stack (the last element of the Python list).  [load_log]
    is a ghost field: every invocation of [Module.load] records the
    module and the stack at that moment, most recent first. *)
Record State := mkState {
  heap : ref -> ModuleObj;
  requires : fref -> RequireObj;
  modules : gmap string ref;
  module_stack : list ref;
  load_log : list (ref * list ref)
}.

(** What [module.load()] does, as far as the engine can observe it: it
    issues [require] calls through some facade, fills the namespace, sets
    [exports], raises, or returns.  [MarkLoaded] is a loader setting
    [module.loaded] itself; [IfDepthLt n] branches on
    [len(context.module_stack) < n]. *)
Inductive body :=
| Return_
| Raise_ (e : exn)
| Call (f : fref) (request : string) (want_exports : bool) (k : body)
| Try (f : fref) (requests : list string) (do_load want_exports : bool) (k : body)
| SetExports (v : value) (k : body)
| SetAttr (name : string) (v : value) (k : body)
| MarkLoaded (k : body)
| IfDepthLt (n : nat) (thn els : body).

(** What [resolver.resolve_module(request)] can do: return a [Module]
    object, return some other object, raise [ResolveError] (carrying the
    request it was given when [other = None], another [Request] object
    otherwise) or raise anything else. *)
Inductive resolver_result :=
| ResModule (m : ref)
| ResNonModule
| ResFail (other : option Request) (search_paths : list string)
| ResRaise (e : exn).

(** A resolver reads the request and may look at the state (the cache,
    the module on top of the stack); it does not write to it. *)
Definition Resolver := Request -> State -> resolver_result.

(** The collaborators of the engine that are declared outside
    [context.py]: the resolver chain [Context.resolvers], the methods
    [Module.init] and [Module.load] of [nodepy.base], and
    [pathlib.Path.cwd()]. *)
Record Env := mkEnv {
  resolvers : list Resolver;
  Module_init : ref -> ModuleObj -> exn + ModuleObj;
  Module_load : ref -> body;
  cwd : string
}.

Inductive outcome (A : Type) :=
| Ret (a : A)
| Exc (e : exn)
| OutOfFuel.
Arguments Ret {A} a.
Arguments Exc {A} e.
Arguments OutOfFuel {A}.

Definition result (A : Type) : Type := outcome A * State.

(** ** State updates *)

Definition set_module (m : ref) (o : ModuleObj) (st : State) : State :=
  mkState (fun r => if Nat.eqb r m then o else heap st r)
          (requires st) (modules st) (module_stack st) (load_log st).

Definition set_loaded (m : ref) (b : bool) (st : State) : State :=
  let o := heap st m in
  set_module m (mkModule (filename o) b (exception o) (exports o) (namespace o)) st.

Definition set_exception (m : ref) (e : option exn) (st : State) : State :=
  let o := heap st m in
  set_module m (mkModule (filename o) (loaded o) e (exports o) (namespace o)) st.

Definition set_exports (m : ref) (v : option value) (st : State) : State :=
  let o := heap st m in
  set_module m (mkModule (filename o) (loaded o) (exception o) v (namespace o)) st.

Definition set_attr (m : ref) (name : string) (v : value) (st : State) : State :=
  let o := heap st m in
  set_module m (mkModule (filename o) (loaded o) (exception o) (exports o)
                         (<[name := v]> (namespace o))) st.

Definition set_modules (ms : gmap string ref) (st : State) : State :=
  mkState (heap st) (requires st) ms (module_stack st) (load_log st).

Definition set_stack (s : list ref) (st : State) : State :=
  mkState (heap st) (requires st) (modules st) s (load_log st).

Definition set_cache (f : fref) (request : string) (m : ref) (st : State) : State :=
  let r := requires st f in
  mkState (heap st)
          (fun g => if Nat.eqb g f
                    then mkRequire (directory r) (path r) (<[request := m]> (cache r))
                    else requires st g)
          (modules st) (module_stack st) (load_log st).

Definition log_load (m : ref) (st : State) : State :=
  mkState (heap st) (requires st) (modules st) (module_stack st)
          ((m, module_stack st) :: load_log st).

(** ** Context.resolve *)

(** The [for resolver in self.resolvers] loop with its accumulator
    [search_paths]. *)
Fixpoint resolve_loop (rs : list Resolver) (request : Request)
    (search_paths : list string) (st : State) : result ref :=
  match rs with
  | [] => (Exc (ResolveError request search_paths), st)
  | resolver :: rs' =>
      match resolver request st with
      | ResFail None paths => resolve_loop rs' request (search_paths ++ paths) st
      | ResFail (Some _) _ => (Exc AssertionError, st)
      | ResRaise e => (Exc e, st)
      | ResNonModule => (Exc (RuntimeError NonModuleObject), st)
      | ResModule m =>
          let fn := filename (heap st m) in
          match modules st !! fn with
          | Some have_module =>
              if Nat.eqb have_module m
              then (Ret m, set_modules (<[fn := m]> (modules st)) st)
              else (Exc (RuntimeError NewModuleBesidesExisting), st)
          | None => (Ret m, set_modules (<[fn := m]> (modules st)) st)
          end
      end
  end.

(** The first lines of [Context.resolve]: a string ([inl]) is wrapped in
    a [Request] rooted at [directory], or at the working directory when
    [directory] is [None]; a ready [Request] ([inr]) is used as it is. *)
Definition as_request (W : Env) (request : string + Request)
    (dir : option string) (additional_search_path : list string) : Request :=
  match request with
  | inr rq => rq
  | inl s =>
      let d := match dir with Some d => d | None => cwd W end in
      mkRequest d s additional_search_path
  end.

(** [Context.resolve(request, directory=None, additional_search_path=())]. *)
Definition Context_resolve (W : Env) (st : State) (request : string + Request)
    (dir : option string) (additional_search_path : list string) : result ref :=
  resolve_loop (resolvers W) (as_request W request dir additional_search_path) [] st.

(** ** Require.resolve *)

Definition Require_resolve (W : Env) (st : State) (f : fref) (request : string)
    : result ref :=
  let self := requires st f in
  let fresh :=
    match Context_resolve W st (inl request) (Some (directory self)) (path self) with
    | (Ret m, st1) => (Ret m, set_cache f request m st1)
    | r => r
    end in
  match cache self !! request with
  | Some m =>
      match exception (heap st m) with
      | Some _ => fresh
      | None => (Ret m, st)
      end
  | None => fresh
  end.

(** ** Context.load_module, Require.__call__ and Require.try_ *)

(** The value [Require.__call__] hands back for module [m]. *)
Definition call_value (want_exports : bool) (m : ref) (o : ModuleObj) : value :=
  if want_exports then
    match exports o with
    | None => VNamespace m
    | Some v => v
    end
  else VModule m.

Section Engine.
Variable W : Env.
(** [Require.__call__] as seen from inside a module body. *)
Variable call : State -> fref -> string -> bool -> result value.

(** One pass through the [try] block of [Require.try_]:
    [self(request, exports=exports)] when [load] is set,
    [self.resolve(request)] otherwise. *)
Definition attempt (st : State) (f : fref) (request : string)
    (do_load want_exports : bool) : result value :=
  if do_load then call st f request want_exports
  else match Require_resolve W st f request with
       | (Ret m, st1) => (Ret (VModule m), st1)
       | (Exc e, st1) => (Exc e, st1)
       | (OutOfFuel, st1) => (OutOfFuel, st1)
       end.

(** The loop of [Require.try_] with its variable [exc_info]. *)
Fixpoint try_loop (st : State) (f : fref) (requests : list string)
    (do_load want_exports : bool) (exc_info : option exn) : result value :=
  match requests with
  | [] =>
      match exc_info with
      | Some e => (Exc e, st)
      | None => (Exc (ValueError "no requests specified"), st)
      end
  | request :: rest =>
      match attempt st f request do_load want_exports with
      | (Exc (ResolveError rq sp), st1) =>
          if String.eqb (req_string rq) request
          then try_loop st1 f rest do_load want_exports (Some (ResolveError rq sp))
          else (Exc (ResolveError rq sp), st1)
      | r => r
      end
  end.

Definition try_ (st : State) (f : fref) (requests : list string)
    (do_load want_exports : bool) : result value :=
  try_loop st f requests do_load want_exports None.

(** Running [module.load()] for the module [self]. *)
Fixpoint exec_body (b : body) (self : ref) (st : State) : result unit :=
  match b with
  | Return_ => (Ret tt, st)
  | Raise_ e => (Exc e, st)
  | Call f request want_exports k =>
      match call st f request want_exports with
      | (Ret _, st1) => exec_body k self st1
      | (Exc e, st1) => (Exc e, st1)
      | (OutOfFuel, st1) => (OutOfFuel, st1)
      end
  | Try f requests do_load want_exports k =>
      match try_ st f requests do_load want_exports with
      | (Ret _, st1) => exec_body k self st1
      | (Exc e, st1) => (Exc e, st1)
      | (OutOfFuel, st1) => (OutOfFuel, st1)
      end
  | SetExports v k => exec_body k self (set_exports self (Some v) st)
  | SetAttr name v k => exec_body k self (set_attr self name v st)
  | MarkLoaded k => exec_body k self (set_loaded self true st)
  | IfDepthLt n thn els =>
      if Nat.ltb (length (module_stack st)) n
      then exec_body thn self st
      else exec_body els self st
  end.

(** The [finally] clause of [load_module]: pop and compare. *)
Definition load_finally (m : ref) (pending : outcome unit) (st : State)
    : result unit :=
  match module_stack st with
  | [] => (Exc IndexError, st)
  | top :: rest =>
      if Nat.eqb top m then (pending, set_stack rest st)
      else (Exc (RuntimeError StackCorrupted), set_stack rest st)
  end.

(** The [except] / [else] / [finally] clauses around [module.load()]. *)
Definition load_after (m : ref) (r : result unit) : result unit :=
  match r with
  | (OutOfFuel, st) => (OutOfFuel, st)
  | (Exc e, st) =>
      let st1 := set_exception m (Some e) st in
      let fn := filename (heap st1 m) in
      match modules st1 !! fn with
      | Some _ => load_finally m (Exc e) (set_modules (delete fn (modules st1)) st1)
      | None => load_finally m (Exc (KeyError fn)) st1
      end
  | (Ret _, st) => load_finally m (Ret tt) (set_loaded m true st)
  end.

Definition Context_load_module (st : State) (m : ref) (do_init : bool)
    : result unit :=
  let module := heap st m in
  match exception module with
  | Some e => (Exc e, st)
  | None =>
      if loaded module then (Ret tt, st)
      else
        match modules st !! filename module with
        | None => (Exc (RuntimeError (NotInModules m)), st)
        | Some _ =>
            match (if do_init then Module_init W m module else inr module) with
            | inl e => (Exc e, st)
            | inr module1 =>
                let st1 := set_module m module1 st in
                let st2 := set_stack (m :: module_stack st1) st1 in
                load_after m (exec_body (Module_load W m) m (log_load m st2))
            end
        end
  end.

Definition Require_call_step (st : State) (f : fref) (request : string)
    (want_exports : bool) : result value :=
  match Require_resolve W st f request with
  | (Ret m, st1) =>
      let after :=
        if loaded (heap st1 m) then (Ret tt, st1)
        else Context_load_module st1 m true in
      match after with
      | (Ret _, st2) => (Ret (call_value want_exports m (heap st2 m)), st2)
      | (Exc e, st2) => (Exc e, st2)
      | (OutOfFuel, st2) => (OutOfFuel, st2)
      end
  | (Exc e, st1) => (Exc e, st1)
  | (OutOfFuel, st1) => (OutOfFuel, st1)
  end.
End Engine.

(** [Require.__call__(request, exports)]: the nesting of [require] calls
    made by module bodies is bounded by [fuel]. *)
Fixpoint Require_call (fuel : nat) (W : Env) (st : State) (f : fref)
    (request : string) (want_exports : bool) : result value :=
  match fuel with
  | O => (OutOfFuel, st)
  | S n => Require_call_step W (Require_call n W) st f request want_exports
  end.

(** [Context.load_module(module, do_init)] called from outside. *)
Definition load_module (fuel : nat) (W : Env) (st : State) (m : ref)
    (do_init : bool) : result unit :=
  Context_load_module W (Require_call fuel W) st m do_init.

(** [Require.try_] with its requests and the flags [load] and [exports],
    called from outside. *)
Definition Require_try_ (fuel : nat) (W : Env) (st : State) (f : fref)
    (requests : list string) (do_load want_exports : bool) : result value :=
  try_ W (Require_call fuel W) st f requests do_load want_exports.

(** ** Vocabulary of the statements *)

(** Every resolver of [rs] raises [ResolveError] for the request it was
    given; [pss] lists, in order, the search paths each one reports. *)
Definition fail_all (rq : Request) (st : State) (rs : list Resolver)
    (pss : list (list string)) : Prop :=
  Forall2 (fun r ps => r rq st = ResFail None ps) rs pss.

(** [all_not_found run st requests e st']: starting in [st], every request
    of the non-empty list [requests], tried in order, raises a
    [ResolveError] whose request string is the one just tried; [e] is the
    error of the last one and [st'] the state it leaves. *)
Inductive all_not_found (run : State -> string -> result value)
    : State -> list string -> exn -> State -> Prop :=
| anf_last st r rq sp st1 :
    run st r = (Exc (ResolveError rq sp), st1) ->
    req_string rq = r ->
    all_not_found run st [r] (ResolveError rq sp) st1
| anf_next st r rq sp st1 rest e st2 :
    run st r = (Exc (ResolveError rq sp), st1) ->
    req_string rq = r ->
    all_not_found run st1 rest e st2 ->
    all_not_found run st (r :: rest) e st2.

(** The load stack is the same before and after. *)
Definition same_stack (st st' : State) : Prop :=
  module_stack st' = module_stack st.

(** Number of invocations of [Module.load] on [m] recorded in a log. *)
Fixpoint count_ref (m : ref) (l : list (ref * list ref)) : nat :=
  match l with
  | [] => 0
  | (x, _) :: l' => (if Nat.eqb x m then 1 else 0) + count_ref m l'
  end.

Definition count_loads (m : ref) (st : State) : nat :=
  count_ref m (load_log st).


(** A module that is marked loaded or carries a stored exception: the two
    conditions under which [load_module] does not run the body. *)
Definition flagged (st : State) (x : ref) : Prop :=
  loaded (heap st x) = true \/ exception (heap st x) <> None.



(** ** A small installation used in the examples

    Two module objects, [0] for [/a.py] and [1] for [/b.py]; [Require]
    objects rooted at [/], of which [0] is the one of the caller outside
    and [1] and [2] are those the bodies of [a] and [b] use; and
    resolvers that know the requests [a] and [b]. *)

Definition ex_blank (fn : string) : ModuleObj := mkModule fn false None None ∅.

Definition ex_heap : ref -> ModuleObj :=
  fun r => match r with
           | 0 => ex_blank "/a.py"
           | 1 => ex_blank "/b.py"
           | _ => ex_blank "/other.py"
           end.

Definition ex_state : State :=
  mkState ex_heap (fun _ => mkRequire "/" [] ∅) ∅ [] [].

Definition ex_resolver : Resolver := fun rq _ =>
  if String.eqb (req_string rq) "a" then ResModule 0
  else if String.eqb (req_string rq) "b" then ResModule 1
  else ResFail None [("/" ++ req_string rq ++ ".py")%string].

(** The same installation once [a] has been resolved: [/a.py] is cached. *)
Definition ex_cached : State :=
  set_modules (<["/a.py" := 0]> ∅) ex_state.

(** The module [a] is marked loaded, carries a stored exception and is
    not in the cache. *)
Definition ex_failed : State :=
  set_module 0 (mkModule "/a.py" true (Some (BodyError 7)) None ∅) ex_state.

(** A resolver that finds nothing and reports two places it looked at. *)
Definition ex_miss (tag : string) : Resolver := fun rq _ =>
  ResFail None [(tag ++ "/" ++ req_string rq)%string;
                (tag ++ "/" ++ req_string rq ++ ".py")%string].

Definition ex_env (ld : ref -> body) : Env :=
  mkEnv [ex_resolver] (fun _ o => inr o) ld "/cwd".

Definition ex_chain_env : Env :=
  mkEnv [ex_miss "/p"; ex_miss "/q"; ex_resolver; ex_miss "/r"]
        (fun _ o => inr o) (fun _ => Return_) "/cwd".

(** A chain whose second resolver hands back something that is not a
    [Module]. *)
Definition ex_non_module_env : Env :=
  mkEnv [ex_miss "/p"; fun _ _ => ResNonModule; ex_resolver]
        (fun _ o => inr o) (fun _ => Return_) "/cwd".

(** [/a.py] is cached for the object [2], while the resolvers answer the
    request [a] with the object [0]. *)
Definition ex_collision : State :=
  set_modules (<["/a.py" := 2]> ∅) ex_state.


(** [a] requires itself once; the nested run of its body raises. *)
Definition ex_cyclic_inner_raise : Env :=
  ex_env (fun r => match r with
                   | 0 => IfDepthLt 2 (Call 1 "a" true Return_) (Raise_ (BodyError 7))
                   | _ => Return_
                   end).

(** [a] requires itself once; the outer run of its body raises afterwards. *)
Definition ex_cyclic_outer_raise : Env :=
  ex_env (fun r => match r with
                   | 0 => IfDepthLt 2 (Call 1 "a" true (Raise_ (BodyError 7))) Return_
                   | _ => Return_
                   end).

(** A loader that marks the module loaded first: [a] requires [b], which
    requires [a] back and then sets its exports to [None]. *)
Definition ex_marking : Env :=
  ex_env (fun r => match r with
                   | 0 => MarkLoaded (SetAttr "x" (VInt 1) (Call 1 "b" true Return_))
                   | 1 => MarkLoaded (Call 2 "a" true (SetExports VNone Return_))
                   | _ => MarkLoaded Return_
                   end).

(** The body of [a] simply raises. *)
Definition ex_raising : Env :=
  ex_env (fun r => match r with
                   | 0 => Raise_ (BodyError 7)
                   | _ => Return_
                   end).

(** ** Context.current_module *)

(** The property [Context.current_module]: the last element of
    [module_stack], or [None] when nothing is loading. *)
Definition current_module (st : State) : option ref :=
  head (module_stack st).

(** ** Vocabulary for what a call leaves behind *)

(** Marks on module objects are only ever added. *)
Definition stays_flagged (st st' : State) : Prop :=
  (forall x, loaded (heap st x) = true -> loaded (heap st' x) = true)
  /\ (forall x, exception (heap st x) <> None -> exception (heap st' x) <> None).

(** [settled st st']: marks are only added, a module that was marked has
    not been loaded again, and a cache entry is gone or replaced only if
    some load has failed in between. *)
Definition settled (st st' : State) : Prop :=
  stays_flagged st st'
  /\ (forall x, flagged st x -> count_loads x st' = count_loads x st)
  /\ (forall k x, modules st !! k = Some x ->
        modules st' !! k = Some x
        \/ exists m, exception (heap st m) = None
                     /\ exception (heap st' m) <> None).


(** [finished fuel W st st']: some [require], [try_] or [load_module]
    started in [st] has come to an end, by returning or by raising, in
    [st']. *)
Definition finished (fuel : nat) (W : Env) (st st' : State) : Prop :=
  (exists f request want out,
      Require_call fuel W st f request want = (out, st') /\ out <> OutOfFuel)
  \/ (exists f requests do_load want out,
        Require_try_ fuel W st f requests do_load want = (out, st')
        /\ out <> OutOfFuel)
  \/ (exists m do_init out,
        load_module fuel W st m do_init = (out, st') /\ out <> OutOfFuel).

(** ** Vocabulary for the caches of the facades *)

(** Every entry of every [Require.cache] is still there, unless the
    module it held carries a stored exception. *)
Definition caches_kept (st st' : State) : Prop :=
  forall f request m,
    cache (requires st f) !! request = Some m ->
    cache (requires st' f) !! request = Some m
    \/ exception (heap st' m) <> None.

Definition kept (st st' : State) : Prop :=
  settled st st' /\ caches_kept st st'.

(** One use of the engine from outside: a [require], [try_] or
    [load_module] that finishes, a [Require.resolve], or a
    [Context.resolve]. *)
Definition engine_step (W : Env) (st st' : State) : Prop :=
  (exists fuel, finished fuel W st st')
  \/ (exists f request out, Require_resolve W st f request = (out, st'))
  \/ (exists request dir sp out,
        Context_resolve W st request dir sp = (out, st')).

(** [later W st st']: [st'] is reached from [st] by any number of uses
    of the engine. *)
Inductive later (W : Env) : State -> State -> Prop :=
| later_now st : later W st st
| later_step st st1 st2 :
    later W st st1 -> engine_step W st1 st2 -> later W st st2.

(** ** The registry service: user registration

    [register], [get_pw], [hash_pw] and [response] of
    [src/upython/upmd/api.py].  A Python [str] is the list of its code
    points, so that [len] is the length of the list; the literals of the
    source are plain ASCII and are written with [text].  The [User]
    collection is the list of the stored documents in insertion order;
    [hash_password] comes from the [models] module and is a parameter. *)

(** The [str] of an ASCII literal. *)
Definition text (s : string) : list N :=
  map Ascii.N_of_ascii (String.list_ascii_of_string s).

(** The fields of a [User] document that [register] sets. *)
Record User := mkUser {
  name : list N;
  passhash : list N;
  email : list N
}.

(** [flask.Response(json.dumps(data), code, mimetype='test/json')]; the
    dictionary is kept as the list of its items. *)
Record Response := mkResponse {
  data : list (string * list N);
  code : nat;
  mimetype : string
}.

Definition response (d : list (string * list N)) (c : nat) : Response :=
  mkResponse d c "test/json".

(** [User.objects(name=username).first()]. *)
Definition first_named (db : list User) (username : list N) : option User :=
  List.find (fun u => bool_decide (name u = username)) db.

(** The test [not v or len(v) < lo or len(v) > hi] on a form field that
    may be missing: [None] when it holds, the field otherwise. *)
Definition checked (v : option (list N)) (lo hi : nat) : option (list N) :=
  match v with
  | None => None
  | Some s =>
      if bool_decide (s = []) || Nat.ltb (length s) lo || Nat.ltb hi (length s)
      then None else Some s
  end.

(** [register()]: the form of the request and the collection go in, the
    response and the collection come out. *)
Definition register (hash_password : list N -> list N)
    (form : gmap string (list N)) (db : list User) : Response * list User :=
  match checked (form !! "username") 3 24 with
  | None =>
      (response [("error", text "no or invalid username specified")] 400, db)
  | Some username =>
      match checked (form !! "password") 6 64 with
      | None =>
          (response [("error", text "no or invalid password specified")] 400, db)
      | Some password =>
          match checked (form !! "email") 4 64 with
          | None =>
              (response [("error", text "no or invalid email specified")] 400, db)
          | Some email_ =>
              match first_named db username with
              | Some _ =>
                  (response [("error",
                              text "user " ++ [34%N] ++ username ++ [34%N]
                              ++ text " already exists")] 400, db)
              | None =>
                  (response [("status", text "ok");
                             ("message", text "User registered successfully")]
                            200,
                   db ++ [mkUser username (hash_password password) email_])
              end
          end
      end
  end.

(** [get_pw(username)], the password lookup of the HTTP authentication,
    and [hash_pw(username, password)], its hashing callback. *)
Definition get_pw (db : list User) (username : list N) : option (list N) :=
  match first_named db username with
  | Some user => Some (passhash user)
  | None => None
  end.

Definition hash_pw (hash_password : list N -> list N)
    (username password : list N) : list N :=
  hash_password password.

(** A form field of acceptable length, counted in code points. *)
Definition field_ok (form : gmap string (list N)) (key : string) (lo hi : nat)
    (s : list N) : Prop :=
  form !! key = Some s /\ lo <= length s <= hi.

Definition ex_form : gmap string (list N) :=
  <["username" := text "alice"]> (<["password" := text "secret1"]>
    (<["email" := text "a@b.c"]> ∅)).

Definition ex_hash (p : list N) : list N := text "h:" ++ p.

(** One user is stored already. *)
Definition ex_users : list User :=
  [mkUser (text "bob") (text "h:hunter22") (text "b@c.d")].

(** A username of two characters outside ASCII (U+00E9, U+4E2D). *)
Definition ex_short_form : gmap string (list N) :=
  <["username" := [233%N; 20013%N]]> ex_form.



(** The caller's facade has resolved [a] through the engine, and has
    then required [b], whose body requires [a] through its own facade. *)
Definition ex_memo_resolved : State :=
  snd (Require_resolve ex_marking ex_state 0 "a").

Definition ex_memo_later : State :=
  snd (Require_call 5 ex_marking ex_memo_resolved 0 "b" true).

(** * Properties *)

(** ** Context.resolve *)

(** Resolvers that fail for the request are skipped; their search paths
    are appended, in order, to the accumulator. *)
Lemma resolve_loop_skip rs pss rest rq acc st :
  fail_all rq st rs pss ->
  resolve_loop (rs ++ rest) rq acc st
  = resolve_loop rest rq (acc ++ concat pss) st.
Proof.
  intros H. revert acc.
  induction H as [|r ps rs pss Hr _ IH]; intros acc; simpl.
  - by rewrite app_nil_r.
  - rewrite Hr, IH. by rewrite <- app_assoc.
Qed.

(** Whatever the loop does, it leaves the state alone unless it returns a
    module, and then it only writes that module's cache entry. *)
Lemma resolve_loop_state rs rq acc st out st' :
  resolve_loop rs rq acc st = (out, st') ->
  match out with
  | Ret m => st' = set_modules (<[filename (heap st m) := m]> (modules st)) st
  | Exc _ => st' = st
  | OutOfFuel => False
  end.
Proof.
  revert acc. induction rs as [|r rs IH]; intros acc; simpl.
  - intros [= <- <-]. reflexivity.
  - destruct (r rq st) as [m| |[other|] ps|e].
    + destruct (modules st !! filename (heap st m)) as [have|].
      * destruct (Nat.eqb have m); intros [= <- <-]; reflexivity.
      * intros [= <- <-]; reflexivity.
    + intros [= <- <-]; reflexivity.
    + intros [= <- <-]; reflexivity.
    + apply IH.
    + intros [= <- <-]; reflexivity.
Qed.

(** C4: the resolvers are consulted in registration order; the first one
    that returns a module (one the cache accepts) ends the walk, whatever
    the later resolvers would do, and its module is returned; when every
    resolver fails, [ResolveError] is raised with the request and the
    search paths of all resolvers concatenated in chain order. *)
Theorem Context_resolve_chain (W : Env) (st : State) (request : string + Request)
    (dir : option string) (sp : list string) :
  let rq := as_request W request dir sp in
  (forall pre r post pss m,
      resolvers W = pre ++ r :: post ->
      fail_all rq st pre pss ->
      r rq st = ResModule m ->
      modules st !! filename (heap st m) = None
        \/ modules st !! filename (heap st m) = Some m ->
      Context_resolve W st request dir sp
      = (Ret m, set_modules (<[filename (heap st m) := m]> (modules st)) st))
  /\ (forall pss,
      fail_all rq st (resolvers W) pss ->
      Context_resolve W st request dir sp
      = (Exc (ResolveError rq (concat pss)), st)).
Proof.
  intros rq. unfold Context_resolve. fold rq. split.
  - intros pre r post pss m HW Hpre Hr Hcache.
    rewrite HW, (resolve_loop_skip _ _ _ _ _ _ Hpre). simpl. rewrite Hr.
    cbv zeta. destruct Hcache as [-> | ->]; [reflexivity|].
    by rewrite Nat.eqb_refl.
  - intros pss Hall.
    rewrite <- (app_nil_r (resolvers W)).
    by rewrite (resolve_loop_skip _ _ _ _ _ _ Hall).
Qed.

(** The two consistency checks on what a resolver returned. *)
Lemma resolve_loop_non_module r rs rq acc st :
  r rq st = ResNonModule ->
  resolve_loop (r :: rs) rq acc st = (Exc (RuntimeError NonModuleObject), st).
Proof. intros Hr. simpl. by rewrite Hr. Qed.

Lemma resolve_loop_collision r rs rq acc st m have_module :
  r rq st = ResModule m ->
  modules st !! filename (heap st m) = Some have_module ->
  have_module <> m ->
  resolve_loop (r :: rs) rq acc st
  = (Exc (RuntimeError NewModuleBesidesExisting), st).
Proof.
  intros Hr Hc Hne. simpl. rewrite Hr. cbv zeta. rewrite Hc.
  destruct (Nat.eqb_spec have_module m); [contradiction|reflexivity].
Qed.

(** C6: a resolver that returns something that is not a [Module], or a
    [Module] other than the one cached under the same filename, makes
    [Context.resolve] raise [RuntimeError]; the error is never a
    [ResolveError], and the state is left as it was. *)
Theorem Context_resolve_inconsistent (W : Env) (st : State)
    (request : string + Request) (dir : option string) (sp : list string)
    (pre : list Resolver) (r : Resolver) (post : list Resolver)
    (pss : list (list string)) :
  let rq := as_request W request dir sp in
  resolvers W = pre ++ r :: post ->
  fail_all rq st pre pss ->
  (r rq st = ResNonModule ->
     Context_resolve W st request dir sp
     = (Exc (RuntimeError NonModuleObject), st))
  /\ (forall m have_module,
        r rq st = ResModule m ->
        modules st !! filename (heap st m) = Some have_module ->
        have_module <> m ->
        Context_resolve W st request dir sp
        = (Exc (RuntimeError NewModuleBesidesExisting), st))
  /\ (r rq st = ResNonModule
      \/ (exists m have_module,
            r rq st = ResModule m
            /\ modules st !! filename (heap st m) = Some have_module
            /\ have_module <> m) ->
      forall rq' ps,
        fst (Context_resolve W st request dir sp) <> Exc (ResolveError rq' ps)).
Proof.
  intros rq HW Hpre. unfold Context_resolve. fold rq.
  rewrite HW, (resolve_loop_skip _ _ _ _ _ _ Hpre).
  split; [|split].
  - intros Hr. by apply resolve_loop_non_module.
  - intros m have Hr Hc Hne. by eapply resolve_loop_collision.
  - intros [Hr | (m & have & Hr & Hc & Hne)] rq' ps.
    + rewrite (resolve_loop_non_module _ _ _ _ _ Hr). simpl. discriminate.
    + rewrite (resolve_loop_collision _ _ _ _ _ _ _ Hr Hc Hne). simpl. discriminate.
Qed.

(** C10: [Context.resolve] writes the module cache only when it returns:
    whenever it raises, the cache (indeed the whole state) is what it was
    before the call, and when it returns module [m] the only change is the
    entry of [m] under its filename. *)
Theorem Context_resolve_cache (W : Env) (st : State) (request : string + Request)
    (dir : option string) (sp : list string) (out : outcome ref) (st' : State) :
  Context_resolve W st request dir sp = (out, st') ->
  (forall e, out = Exc e -> st' = st /\ modules st' = modules st)
  /\ (forall m, out = Ret m ->
        modules st' = <[filename (heap st m) := m]> (modules st)
        /\ st' = set_modules (modules st') st)
  /\ out <> OutOfFuel.
Proof.
  intros H. apply resolve_loop_state in H.
  destruct out as [m|e|]; [| |contradiction].
  - subst st'. split; [discriminate|]. split; [|discriminate].
    intros ? [= <-]. split; reflexivity.
  - subst st'. split; [|split; discriminate].
    intros ? _. split; reflexivity.
Qed.

(** ** Require.resolve *)

(** Resolution touches neither the module objects, nor the load stack,
    nor the record of loads. *)
Lemma Context_resolve_frame W st request dir sp out st' :
  Context_resolve W st request dir sp = (out, st') ->
  heap st' = heap st /\ module_stack st' = module_stack st
  /\ load_log st' = load_log st /\ requires st' = requires st.
Proof.
  intros H. apply resolve_loop_state in H.
  destruct out; [subst st'| subst st' |contradiction]; by repeat split.
Qed.

Lemma Require_resolve_frame W st f request out st' :
  Require_resolve W st f request = (out, st') ->
  heap st' = heap st /\ module_stack st' = module_stack st
  /\ load_log st' = load_log st.
Proof.
  unfold Require_resolve.
  set (fresh := match Context_resolve W st (inl request) _ _ with
                | (Ret m, st1) => (Ret m, set_cache f request m st1)
                | r => r
                end).
  assert (Hfresh : fresh = (out, st') ->
            heap st' = heap st /\ module_stack st' = module_stack st
            /\ load_log st' = load_log st).
  { subst fresh.
    destruct (Context_resolve W st (inl request) (Some (directory (requires st f)))
                (path (requires st f))) as [o s1] eqn:E.
    apply Context_resolve_frame in E as (Hh & Hs & Hl & _).
    destruct o; intros [= <- <-]; simpl; by repeat split. }
  destruct (cache (requires st f) !! request) as [m|]; [|exact Hfresh].
  destruct (exception (heap st m)); [exact Hfresh|].
  intros [= <- <-]. by repeat split.
Qed.

Lemma set_cache_lookup f request m st :
  cache (requires (set_cache f request m st) f) !! request = Some m.
Proof.
  unfold set_cache. simpl. rewrite Nat.eqb_refl. simpl.
  apply lookup_insert_eq.
Qed.

(** ** Context.load_module: the checks before the load *)

(** C9: a stored exception is re-raised before anything else is looked at,
    also for a module that is marked loaded or is no longer in
    [Context.modules]; without one, a loaded module makes [load_module]
    return at once; the "not in Context.modules" error is what a module
    with no stored exception that is not loaded gets when its filename is
    not cached.  None of the three touches the state. *)
Theorem load_module_checks (fuel : nat) (W : Env) (st : State) (m : ref)
    (do_init : bool) :
  let module := heap st m in
  (forall e, exception module = Some e ->
             load_module fuel W st m do_init = (Exc e, st))
  /\ (exception module = None -> loaded module = true ->
      load_module fuel W st m do_init = (Ret tt, st))
  /\ (exception module = None -> loaded module = false ->
      modules st !! filename module = None ->
      load_module fuel W st m do_init
      = (Exc (RuntimeError (NotInModules m)), st)).
Proof.
  intros module. unfold load_module, Context_load_module. fold module.
  split; [|split].
  - by intros e ->.
  - by intros -> ->.
  - by intros -> -> ->.
Qed.

(** ** Require.__call__ *)

(** One unfolding of the fuel. *)
Lemma Require_call_S fuel W st f request want :
  Require_call (S fuel) W st f request want
  = Require_call_step W (Require_call fuel W) st f request want.
Proof. reflexivity. Qed.

(** C8: when [Require.__call__] returns, the module [m] it resolved
    decides the value: with [exports] wanted it is [m.exports] whenever
    that has been set (also when it was set to [None]) and [m.namespace]
    only while [m.exports] is still the sentinel; with [exports] not
    wanted it is the module object itself. *)
Theorem Require_call_value (fuel : nat) (W : Env) (st : State) (f : fref)
    (request : string) (want : bool) (v : value) (st' : State) :
  Require_call fuel W st f request want = (Ret v, st') ->
  exists m st1,
    Require_resolve W st f request = (Ret m, st1)
    /\ (want = true -> forall x, exports (heap st' m) = Some x -> v = x)
    /\ (want = true -> exports (heap st' m) = None -> v = VNamespace m)
    /\ (want = false -> v = VModule m).
Proof.
  destruct fuel as [|fuel]; [discriminate|].
  rewrite Require_call_S. unfold Require_call_step.
  destruct (Require_resolve W st f request) as [[m| |] st1]; [|discriminate..].
  intros H. exists m, st1. split; [reflexivity|].
  assert (Hv : v = call_value want m (heap st' m)).
  { destruct (loaded (heap st1 m)).
    - by injection H as <- <-.
    - destruct (Context_load_module W (Require_call fuel W) st1 m true)
        as [[[]| |] st2]; [|discriminate..].
      by injection H as <- <-. }
  subst v. unfold call_value.
  split; [|split].
  - intros -> x ->. reflexivity.
  - intros -> ->. reflexivity.
  - intros ->. reflexivity.
Qed.

(** ** Require.try_ *)

Lemma try_loop_all_not_found W call f do_load want st requests e st' :
  all_not_found (fun s r => attempt W call s f r do_load want) st requests e st' ->
  forall ei, try_loop W call st f requests do_load want ei = (Exc e, st').
Proof.
  induction 1 as [st r rq sp st1 Hrun Hreq
                 |st r rq sp st1 rest e st2 Hrun Hreq _ IH]; intros ei; simpl.
  - rewrite Hrun. apply String.eqb_eq in Hreq. by rewrite Hreq.
  - rewrite Hrun. apply String.eqb_eq in Hreq. rewrite Hreq. apply IH.
Qed.

(** C5: [Require.try_] without requests raises [ValueError]; the first
    request that can be required ends the loop with its value; a
    [ResolveError] for the request just tried moves on to the next
    request, and when every request fails so the error of the last one is
    raised; a [ResolveError] for another request string, and any other
    exception, is raised at once and nothing further is tried. *)
Theorem Require_try_semantics (fuel : nat) (W : Env) (f : fref)
    (do_load want : bool) :
  let run := fun st r => attempt W (Require_call fuel W) st f r do_load want in
  let try := fun st requests => Require_try_ fuel W st f requests do_load want in
  (forall st, try st [] = (Exc (ValueError "no requests specified"), st))
  /\ (forall st r rest v st1,
        run st r = (Ret v, st1) -> try st (r :: rest) = (Ret v, st1))
  /\ (forall st r next rest rq sp st1,
        run st r = (Exc (ResolveError rq sp), st1) ->
        req_string rq = r ->
        try st (r :: next :: rest) = try st1 (next :: rest))
  /\ (forall st requests e st',
        all_not_found run st requests e st' -> try st requests = (Exc e, st'))
  /\ (forall st r rest rq sp st1,
        run st r = (Exc (ResolveError rq sp), st1) ->
        req_string rq <> r ->
        try st (r :: rest) = (Exc (ResolveError rq sp), st1))
  /\ (forall st r rest e st1,
        run st r = (Exc e, st1) ->
        (forall rq sp, e <> ResolveError rq sp) ->
        try st (r :: rest) = (Exc e, st1)).
Proof.
  intros run try. unfold try, run, Require_try_, try_.
  repeat split.
  - intros st r rest v st1 H. simpl. by rewrite H.
  - intros st r next rest rq sp st1 H Hreq. simpl try_loop at 1.
    rewrite H. apply String.eqb_eq in Hreq. rewrite Hreq.
    reflexivity.
  - intros st requests e st' H. by apply try_loop_all_not_found.
  - intros st r rest rq sp st1 H Hne. simpl. rewrite H.
    apply String.eqb_neq in Hne. by rewrite Hne.
  - intros st r rest e st1 H Hne. simpl. rewrite H.
    destruct e; try reflexivity. by destruct (Hne request search_paths).
Qed.

(** ** Relations kept by everything a module body can do *)

Section BodyRelation.
Variable W : Env.
Variable R : State -> State -> Prop.
Hypothesis R_refl : forall st, R st st.
Hypothesis R_trans : forall a b c, R a b -> R b c -> R a c.
Hypothesis R_exports : forall st m v, R st (set_exports m v st).
Hypothesis R_attr : forall st m name v, R st (set_attr m name v st).
Hypothesis R_loaded : forall st m, R st (set_loaded m true st).
Hypothesis R_resolve : forall st f request out st',
    Require_resolve W st f request = (out, st') -> R st st'.

Variable call : State -> fref -> string -> bool -> result value.
Hypothesis R_call : forall st f request want out st',
    call st f request want = (out, st') -> out <> OutOfFuel -> R st st'.

Lemma attempt_rel st f request do_load want out st' :
  attempt W call st f request do_load want = (out, st') ->
  out <> OutOfFuel -> R st st'.
Proof.
  unfold attempt. destruct do_load.
  - apply R_call.
  - destruct (Require_resolve W st f request) as [[m|e|] s1] eqn:E;
      intros [= <- <-] _; eapply R_resolve; exact E.
Qed.

Lemma try_loop_rel requests st f do_load want ei out st' :
  try_loop W call st f requests do_load want ei = (out, st') ->
  out <> OutOfFuel -> R st st'.
Proof.
  revert st ei. induction requests as [|r rest IH]; intros st ei; simpl.
  - destruct ei; intros [= <- <-] _; apply R_refl.
  - destruct (attempt W call st f r do_load want) as [o s1] eqn:E.
    destruct o as [v|e|].
    + intros [= <- <-] Hf. eapply attempt_rel; [exact E|exact Hf].
    + assert (Hs1 : R st s1) by (eapply attempt_rel; [exact E|discriminate]).
      destruct e; try (intros [= <- <-] _; exact Hs1).
      destruct (String.eqb (req_string request) r).
      * intros H Hf. eapply R_trans; [exact Hs1|]. eapply IH; eauto.
      * intros [= <- <-] _; exact Hs1.
    + intros [= <- <-] Hf. by destruct Hf.
Qed.

Lemma exec_body_rel b self st out st' :
  exec_body W call b self st = (out, st') ->
  out <> OutOfFuel -> R st st'.
Proof.
  revert st. induction b as [|e|f request want k IH|f requests dl want k IH
                            |v k IH|name v k IH|k IH|n thn IHt els IHe];
    intros st; simpl.
  - intros [= <- <-] _. apply R_refl.
  - intros [= <- <-] _. apply R_refl.
  - destruct (call st f request want) as [[v|e|] s1] eqn:E.
    + intros H Hf. eapply R_trans; [|eapply IH; eauto].
      eapply R_call; [exact E|discriminate].
    + intros [= <- <-] _. eapply R_call; [exact E|discriminate].
    + intros [= <- <-] Hf. by destruct Hf.
  - destruct (try_ W call st f requests dl want) as [[v|e|] s1] eqn:E.
    + intros H Hf. eapply R_trans; [|eapply IH; eauto].
      eapply try_loop_rel; [exact E|discriminate].
    + intros [= <- <-] _. eapply try_loop_rel; [exact E|discriminate].
    + intros [= <- <-] Hf. by destruct Hf.
  - intros H Hf. eapply R_trans; [apply R_exports|]. eapply IH; eauto.
  - intros H Hf. eapply R_trans; [apply R_attr|]. eapply IH; eauto.
  - intros H Hf. eapply R_trans; [apply R_loaded|]. eapply IH; eauto.
  - destruct (Nat.ltb (length (module_stack st)) n); [apply IHt|apply IHe].
Qed.
End BodyRelation.

(** ** The load stack is balanced *)

Lemma exec_body_stack W call b self st out st' :
  (forall s f request want o s',
      call s f request want = (o, s') -> o <> OutOfFuel -> same_stack s s') ->
  exec_body W call b self st = (out, st') ->
  out <> OutOfFuel -> same_stack st st'.
Proof.
  intros Hcall. apply (exec_body_rel W same_stack); try done.
  - unfold same_stack. congruence.
  - intros s f request o s' H. by apply Require_resolve_frame in H as (_ & ? & _).
Qed.

Lemma load_finally_top m pending st rest :
  module_stack st = m :: rest ->
  load_finally m pending st = (pending, set_stack rest st).
Proof. intros H. unfold load_finally. by rewrite H, Nat.eqb_refl. Qed.

Lemma Context_load_module_stack W call st m do_init out st' :
  (forall s f request want o s',
      call s f request want = (o, s') -> o <> OutOfFuel -> same_stack s s') ->
  Context_load_module W call st m do_init = (out, st') ->
  out <> OutOfFuel -> same_stack st st'.
Proof.
  intros Hcall. unfold Context_load_module.
  destruct (exception (heap st m)); [by intros [= <- <-]|].
  destruct (loaded (heap st m)); [by intros [= <- <-]|].
  destruct (modules st !! filename (heap st m)); [|by intros [= <- <-]].
  destruct (if do_init then Module_init W m (heap st m) else inr (heap st m))
    as [e|o1]; [by intros [= <- <-]|].
  destruct (exec_body W call (Module_load W m) m _) as [o s2] eqn:E.
  assert (Hs2 : o <> OutOfFuel -> module_stack s2 = m :: module_stack st).
  { intros Hf. by apply (exec_body_stack _ _ _ _ _ _ _ Hcall E). }
  unfold load_after. destruct o as [[]|e|].
  - rewrite (load_finally_top m _ _ (module_stack st)) by (by apply Hs2).
    by intros [= <- <-].
  - specialize (Hs2 ltac:(discriminate)).
    destruct (modules (set_exception m (Some e) s2) !! _);
      rewrite (load_finally_top m _ _ (module_stack st)) by exact Hs2;
      by intros [= <- <-].
  - intros [= <- <-] Hf. by destruct Hf.
Qed.

Lemma Require_call_stack fuel W st f request want out st' :
  Require_call fuel W st f request want = (out, st') ->
  out <> OutOfFuel -> same_stack st st'.
Proof.
  revert st f request want out st'.
  induction fuel as [|fuel IH]; intros st f request want out st'.
  - intros [= <- <-] Hf. by destruct Hf.
  - rewrite Require_call_S. unfold Require_call_step.
    destruct (Require_resolve W st f request) as [[m|e|] s1] eqn:E;
      [|by intros [= <- <-]; apply Require_resolve_frame in E as (_ & ? & _)
       |by intros [= <- <-] Hf; destruct Hf].
    apply Require_resolve_frame in E as (_ & Hs1 & _).
    destruct (loaded (heap s1 m)).
    + by intros [= <- <-].
    + destruct (Context_load_module W (Require_call fuel W) s1 m true)
        as [o s2] eqn:E2.
      pose proof (Context_load_module_stack _ _ _ _ _ _ _ IH E2) as Hs2.
      unfold same_stack in *.
      destruct o as [[]|e|]; intros [= <- <-] Hf;
        rewrite Hs2; done.
Qed.

(** ** Context.load_module: the load and what follows it *)

(** The state in which [module.load()] starts: [module.init()] has run
    when asked for, the module is on the stack and the call is recorded. *)
Lemma Context_load_module_run (W : Env) call (st : State) (m : ref)
    (do_init : bool) (o1 : ModuleObj) :
  exception (heap st m) = None ->
  loaded (heap st m) = false ->
  is_Some (modules st !! filename (heap st m)) ->
  (if do_init then Module_init W m (heap st m) else inr (heap st m)) = inr o1 ->
  Context_load_module W call st m do_init
  = load_after m (exec_body W call (Module_load W m) m
                    (log_load m (set_stack (m :: module_stack st)
                                           (set_module m o1 st)))).
Proof.
  intros He Hl [x Hc] Hi. unfold Context_load_module.
  by rewrite He, Hl, Hc, Hi.
Qed.

Lemma set_module_same m o st : heap (set_module m o st) m = o.
Proof. unfold set_module. simpl. by rewrite Nat.eqb_refl. Qed.

(** What [load_module] does once the load procedure is over, when the
    module's cache entry is still there at that moment: it stores the
    raised exception on the module, removes the entry, pops the module
    from the load stack and raises that same exception; when the load
    procedure returns, the module is marked loaded and popped as well;
    and a pop that yields another module than the one being loaded is the
    [RuntimeError] "module_stack corrupted", whatever was pending. *)
Theorem load_module_outcome (fuel : nat) (W : Env) (st : State) (m : ref)
    (do_init : bool) (o1 : ModuleObj) (out : outcome unit) (st2 : State) :
  exception (heap st m) = None ->
  loaded (heap st m) = false ->
  is_Some (modules st !! filename (heap st m)) ->
  (if do_init then Module_init W m (heap st m) else inr (heap st m)) = inr o1 ->
  exec_body W (Require_call fuel W) (Module_load W m) m
    (log_load m (set_stack (m :: module_stack st) (set_module m o1 st)))
  = (out, st2) ->
  (forall e, out = Exc e ->
     is_Some (modules st2 !! filename (heap st2 m)) ->
     exists st',
       load_module fuel W st m do_init = (Exc e, st')
       /\ exception (heap st' m) = Some e
       /\ modules st' = delete (filename (heap st2 m)) (modules st2)
       /\ modules st' !! filename (heap st' m) = None
       /\ module_stack st2 = m :: module_stack st
       /\ module_stack st' = module_stack st)
  /\ (out = Ret tt ->
      exists st',
        load_module fuel W st m do_init = (Ret tt, st')
        /\ loaded (heap st' m) = true
        /\ exception (heap st' m) = exception (heap st2 m)
        /\ modules st' = modules st2
        /\ module_stack st2 = m :: module_stack st
        /\ module_stack st' = module_stack st)
  /\ (forall pending s top rest,
        module_stack s = top :: rest -> top <> m ->
        load_finally m pending s
        = (Exc (RuntimeError StackCorrupted), set_stack rest s)).
Proof.
  intros He Hl Hc Hi Hbody.
  assert (Hstack : out <> OutOfFuel -> module_stack st2 = m :: module_stack st).
  { intros Hf.
    apply (exec_body_stack W (Require_call fuel W) _ _ _ _ _
             (Require_call_stack fuel W) Hbody Hf). }
  unfold load_module.
  rewrite (Context_load_module_run W _ st m do_init o1 He Hl Hc Hi), Hbody.
  split; [|split].
  - intros e -> [x Hx]. specialize (Hstack ltac:(discriminate)).
    unfold load_after.
    assert (Hfn : filename (heap (set_exception m (Some e) st2) m)
                  = filename (heap st2 m)).
    { unfold set_exception. by rewrite set_module_same. }
    rewrite Hfn. simpl modules at 1. rewrite Hx.
    rewrite (load_finally_top m _ _ (module_stack st)) by exact Hstack.
    eexists. split; [reflexivity|].
    simpl. rewrite Nat.eqb_refl. simpl.
    repeat split; try done. apply lookup_delete_eq.
  - intros ->. specialize (Hstack ltac:(discriminate)).
    unfold load_after.
    rewrite (load_finally_top m _ _ (module_stack st)) by exact Hstack.
    eexists. split; [reflexivity|].
    simpl. rewrite Nat.eqb_refl. by simpl.
  - intros pending s top rest Hs Hne. unfold load_finally. rewrite Hs.
    destruct (Nat.eqb_spec top m); [contradiction|reflexivity].
Qed.

(** ** Stored exceptions *)

Lemma load_finally_heap m pending st :
  heap (snd (load_finally m pending st)) = heap st.
Proof.
  unfold load_finally. destruct (module_stack st) as [|top rest]; [reflexivity|].
  destruct (Nat.eqb top m); reflexivity.
Qed.

Lemma load_after_stores m e st :
  exception (heap (snd (load_after m (Exc e, st))) m) = Some e.
Proof.
  unfold load_after.
  destruct (modules (set_exception m (Some e) st) !! _);
    rewrite load_finally_heap; simpl; by rewrite Nat.eqb_refl.
Qed.

(** C3, with [require] as the code has it: a load that raised leaves its
    exception stored on the module object; from then on every
    [load_module] on that object raises the stored exception and touches
    nothing, so the body is not run again; a [require] that resolves to
    the same object raises it as well when the object is not marked
    loaded; when the object is marked loaded, [Require.__call__] does not
    go through [load_module] and returns the module's value.  In neither
    case is the body run. *)
Theorem stored_exception_replay (fuel : nat) (W : Env) (m : ref) :
  (forall (st : State) (do_init : bool) (o1 : ModuleObj) (e : exn) (st2 : State),
      exception (heap st m) = None ->
      loaded (heap st m) = false ->
      is_Some (modules st !! filename (heap st m)) ->
      (if do_init then Module_init W m (heap st m) else inr (heap st m)) = inr o1 ->
      exec_body W (Require_call fuel W) (Module_load W m) m
        (log_load m (set_stack (m :: module_stack st) (set_module m o1 st)))
      = (Exc e, st2) ->
      exception (heap (snd (load_module fuel W st m do_init)) m) = Some e)
  /\ (forall (st : State) (e : exn),
        exception (heap st m) = Some e ->
        (forall do_init, load_module fuel W st m do_init = (Exc e, st))
        /\ (forall f request want st1,
              Require_resolve W st f request = (Ret m, st1) ->
              loaded (heap st m) = false ->
              Require_call (S fuel) W st f request want = (Exc e, st1)
              /\ load_log st1 = load_log st)
        /\ (forall f request want st1,
              Require_resolve W st f request = (Ret m, st1) ->
              loaded (heap st m) = true ->
              Require_call (S fuel) W st f request want
              = (Ret (call_value want m (heap st m)), st1)
              /\ load_log st1 = load_log st)).
Proof.
  split.
  - intros st do_init o1 e st2 He Hl Hc Hi Hbody. unfold load_module.
    rewrite (Context_load_module_run W _ st m do_init o1 He Hl Hc Hi), Hbody.
    apply load_after_stores.
  - intros st e He. split; [|split].
    + intros do_init. unfold load_module, Context_load_module. by rewrite He.
    + intros f request want st1 Hr Hl.
      pose proof (Require_resolve_frame _ _ _ _ _ _ Hr) as (Hh & _ & Hlog).
      split; [|exact Hlog].
      rewrite Require_call_S. unfold Require_call_step. rewrite Hr, Hh, Hl.
      unfold Context_load_module. by rewrite Hh, He.
    + intros f request want st1 Hr Hl.
      pose proof (Require_resolve_frame _ _ _ _ _ _ Hr) as (Hh & _ & Hlog).
      split; [|exact Hlog].
      rewrite Require_call_S. unfold Require_call_step. rewrite Hr, Hh, Hl.
      cbv beta iota. by rewrite Hh.
Qed.

(** ** At most one load, for loaders that mark the module first *)











(** * The examples, evaluated *)

Lemma pair_fst {A B : Type} (r : A * B) (a : A) : fst r = a -> r = (a, snd r).
Proof. intros <-. by destruct r. Qed.


(** ** Cyclic requires without a marking loader *)


(** C2 at the input where the code misses it: [/a.py] is cached and not
    yet loaded; the load procedure of [a] raises [BodyError 7] (after a
    nested load of [a] has failed and removed the cache entry); the
    handler of [load_module] stores the exception, then its
    [del self.modules[module.filename]] finds no entry, and
    [load_module] raises [KeyError] instead of the exception of the load
    procedure. *)
Lemma reentrant_failure_raises_KeyError :
  let W := ex_cyclic_inner_raise in
  let started :=
    log_load 0 (set_stack (0 :: module_stack ex_cached)
                          (set_module 0 (ex_heap 0) ex_cached)) in
  exception (heap ex_cached 0) = None
  /\ loaded (heap ex_cached 0) = false
  /\ modules ex_cached !! filename (heap ex_cached 0) = Some 0
  /\ fst (exec_body W (Require_call 5 W) (Module_load W 0) 0 started)
     = Exc (BodyError 7)
  /\ fst (load_module 5 W ex_cached 0 true) = Exc (KeyError "/a.py")
  /\ Exc (KeyError "/a.py") <> Exc (A := unit) (BodyError 7).
Proof. vm_compute. repeat split. discriminate. Qed.

(** Counterexample to C3 as it is stated: the first [require] of [a]
    raises the exception of its body, which is stored on the module; the
    second [require] of [a] resolves to the same object and returns its
    namespace instead of raising the stored exception. *)
Lemma require_after_failure_returns :
  let W := ex_cyclic_outer_raise in
  let first := Require_call 5 W ex_state 0 "a" true in
  let second := Require_call 5 W (snd first) 0 "a" true in
  fst first = Exc (BodyError 7)
  /\ exception (heap (snd first) 0) = Some (BodyError 7)
  /\ fst (Require_resolve W (snd first) 0 "a") = Ret 0
  /\ fst second = Ret (VNamespace 0)
  /\ load_log (snd second) = load_log (snd first).
Proof. vm_compute. repeat split. Qed.

(** ** The statements above at concrete inputs *)

Lemma Context_resolve_chain_witness :
  Context_resolve ex_chain_env ex_state (inl "a") None []
  = (Ret 0, set_modules (<["/a.py" := 0]> (modules ex_state)) ex_state)
  /\ Context_resolve ex_chain_env ex_state (inl "c") None []
     = (Exc (ResolveError (mkRequest "/cwd" "c" [])
               ["/p/c"; "/p/c.py"; "/q/c"; "/q/c.py"; "/c.py"; "/r/c"; "/r/c.py"]),
        ex_state).
Proof.
  destruct (Context_resolve_chain ex_chain_env ex_state (inl "a") None [])
    as [Hfirst _].
  destruct (Context_resolve_chain ex_chain_env ex_state (inl "c") None [])
    as [_ Hall].
  split.
  - apply (Hfirst [ex_miss "/p"; ex_miss "/q"] ex_resolver [ex_miss "/r"]
             [["/p/a"; "/p/a.py"]; ["/q/a"; "/q/a.py"]] 0).
    + reflexivity.
    + repeat constructor.
    + reflexivity.
    + left. reflexivity.
  - apply (Hall [["/p/c"; "/p/c.py"]; ["/q/c"; "/q/c.py"]; ["/c.py"];
                 ["/r/c"; "/r/c.py"]]).
    repeat constructor.
Defined.

Lemma Context_resolve_inconsistent_witness :
  Context_resolve ex_non_module_env ex_state (inl "a") None []
  = (Exc (RuntimeError NonModuleObject), ex_state)
  /\ Context_resolve ex_chain_env ex_collision (inl "a") None []
     = (Exc (RuntimeError NewModuleBesidesExisting), ex_collision).
Proof.
  split.
  - destruct (Context_resolve_inconsistent ex_non_module_env ex_state
                (inl "a") None [] [ex_miss "/p"] (fun _ _ => ResNonModule)
                [ex_resolver] [["/p/a"; "/p/a.py"]])
      as [Hnon _]; [reflexivity|repeat constructor|].
    apply Hnon. reflexivity.
  - destruct (Context_resolve_inconsistent ex_chain_env ex_collision
                (inl "a") None [] [ex_miss "/p"; ex_miss "/q"] ex_resolver
                [ex_miss "/r"] [["/p/a"; "/p/a.py"]; ["/q/a"; "/q/a.py"]])
      as (_ & Hcol & _); [reflexivity|repeat constructor|].
    apply (Hcol 0 2); [reflexivity|reflexivity|lia].
Defined.

Lemma Context_resolve_cache_witness :
  modules (snd (Context_resolve ex_chain_env ex_state (inl "c") None []))
  = modules ex_state.
Proof.
  destruct (Context_resolve_cache ex_chain_env ex_state (inl "c") None []
              (Exc (ResolveError (mkRequest "/cwd" "c" [])
                      ["/p/c"; "/p/c.py"; "/q/c"; "/q/c.py"; "/c.py"; "/r/c"; "/r/c.py"]))
              (snd (Context_resolve ex_chain_env ex_state (inl "c") None [])))
    as [Hexc _].
  - apply pair_fst. reflexivity.
  - apply (Hexc _ eq_refl).
Defined.

Lemma load_module_checks_witness :
  load_module 3 ex_raising ex_failed 0 true = (Exc (BodyError 7), ex_failed)
  /\ load_module 3 ex_raising ex_state 0 true
     = (Exc (RuntimeError (NotInModules 0)), ex_state).
Proof.
  split.
  - destruct (load_module_checks 3 ex_raising ex_failed 0 true) as [Hexc _].
    apply Hexc. reflexivity.
  - destruct (load_module_checks 3 ex_raising ex_state 0 true) as (_ & _ & Hnot).
    apply Hnot; reflexivity.
Defined.

Lemma Require_call_value_witness :
  exists m st1,
    Require_resolve ex_marking ex_state 0 "b" = (Ret m, st1)
    /\ (true = true ->
        forall x,
          exports (heap (snd (Require_call 5 ex_marking ex_state 0 "b" true)) m)
          = Some x -> VNone = x)
    /\ (true = true ->
        exports (heap (snd (Require_call 5 ex_marking ex_state 0 "b" true)) m)
        = None -> VNone = VNamespace m)
    /\ (true = false -> VNone = VModule m).
Proof.
  apply (Require_call_value 5 ex_marking ex_state 0 "b" true VNone
           (snd (Require_call 5 ex_marking ex_state 0 "b" true))).
  apply pair_fst. vm_compute. reflexivity.
Defined.

Lemma Require_try_semantics_witness :
  Require_try_ 5 ex_marking ex_state 0 ["x"; "b"] true true
  = Require_try_ 5 ex_marking
      (snd (attempt ex_marking (Require_call 5 ex_marking) ex_state 0 "x" true true))
      0 ["b"] true true
  /\ Require_try_ 5 ex_marking ex_state 0 [] true true
     = (Exc (ValueError "no requests specified"), ex_state).
Proof.
  destruct (Require_try_semantics 5 ex_marking 0 true true)
    as (Hnone & _ & Hnext & _).
  split; [|apply Hnone].
  apply (Hnext ex_state "x" "b" [] (mkRequest "/" "x" []) ["/x.py"]).
  - apply pair_fst. vm_compute. reflexivity.
  - reflexivity.
Defined.

Lemma load_module_outcome_witness :
  exists st',
    load_module 1 ex_raising ex_cached 0 true = (Exc (BodyError 7), st')
    /\ exception (heap st' 0) = Some (BodyError 7)
    /\ modules st' !! "/a.py" = None
    /\ module_stack st' = [].
Proof.
  destruct (load_module_outcome 1 ex_raising ex_cached 0 true (ex_heap 0)
              (Exc (BodyError 7))
              (log_load 0 (set_stack (0 :: module_stack ex_cached)
                                     (set_module 0 (ex_heap 0) ex_cached))))
    as [Hfail _]; try reflexivity.
  - exists 0. reflexivity.
  - destruct (Hfail (BodyError 7) eq_refl) as (st' & H1 & H2 & _ & H4 & _ & H6).
    + exists 0. reflexivity.
    + exists st'. split; [exact H1|]. split; [exact H2|].
      split; [|exact H6].
      assert (Hfn : filename (heap st' 0) = "/a.py").
      { injection H1 as <-. reflexivity. }
      rewrite <- Hfn. exact H4.
Defined.

Lemma stored_exception_replay_witness :
  load_module 3 ex_raising ex_failed 0 false = (Exc (BodyError 7), ex_failed).
Proof.
  destruct (stored_exception_replay 3 ex_raising 0) as [_ Hreplay].
  destruct (Hreplay ex_failed (BodyError 7) eq_refl) as [Hload _].
  apply Hload.
Defined.


(** * Further properties of the engine *)

(** ** The load stack and the current module *)

Lemma Require_try_stack fuel W st f requests do_load want out st' :
  Require_try_ fuel W st f requests do_load want = (out, st') ->
  out <> OutOfFuel -> same_stack st st'.
Proof.
  unfold Require_try_, try_.
  apply (try_loop_rel W same_stack); try done.
  - unfold same_stack. congruence.
  - intros s g request o s' H. by apply Require_resolve_frame in H as (_ & ? & _).
  - intros s g request w o s'. apply Require_call_stack.
Qed.

(** X1: every [require], [try_] and [load_module] that finishes, by
    returning or by raising, leaves [module_stack] as it found it, so
    [current_module] is afterwards what it was before; and when the load
    procedure of [m] ends, [m] is the module on top of the stack. *)
Theorem load_stack_balanced (fuel : nat) (W : Env) (st : State) :
  (forall f request want out st',
      Require_call fuel W st f request want = (out, st') ->
      out <> OutOfFuel ->
      module_stack st' = module_stack st
      /\ current_module st' = current_module st)
  /\ (forall f requests do_load want out st',
        Require_try_ fuel W st f requests do_load want = (out, st') ->
        out <> OutOfFuel ->
        module_stack st' = module_stack st
        /\ current_module st' = current_module st)
  /\ (forall m do_init out st',
        load_module fuel W st m do_init = (out, st') ->
        out <> OutOfFuel ->
        module_stack st' = module_stack st
        /\ current_module st' = current_module st)
  /\ (forall m b s out s2,
        exec_body W (Require_call fuel W) b m
          (log_load m (set_stack (m :: module_stack st) s)) = (out, s2) ->
        out <> OutOfFuel ->
        current_module s2 = Some m).
Proof.
  assert (Hcur : forall s s', module_stack s' = module_stack s ->
                 module_stack s' = module_stack s
                 /\ current_module s' = current_module s).
  { intros s s' H. split; [exact H|]. unfold current_module. by rewrite H. }
  repeat apply conj.
  - intros f request want out st' H Hf.
    apply Hcur. exact (Require_call_stack _ _ _ _ _ _ _ _ H Hf).
  - intros f requests do_load want out st' H Hf.
    apply Hcur. exact (Require_try_stack _ _ _ _ _ _ _ _ _ H Hf).
  - intros m do_init out st' H Hf. apply Hcur.
    exact (Context_load_module_stack W _ st m do_init out st'
             (Require_call_stack fuel W) H Hf).
  - intros m b s out s2 H Hf.
    pose proof (exec_body_stack W _ _ _ _ _ _ (Require_call_stack fuel W) H Hf)
      as Hs.
    unfold current_module. rewrite Hs. reflexivity.
Qed.

(** ** One module object per filename *)

Lemma resolve_loop_keeps rs rq acc st out st' :
  resolve_loop rs rq acc st = (out, st') ->
  forall k x, modules st !! k = Some x -> modules st' !! k = Some x.
Proof.
  revert acc. induction rs as [|r rs IH]; intros acc; simpl.
  - by intros [= <- <-].
  - destruct (r rq st) as [m| |[other|] ps|e]; try (by intros [= <- <-]).
    + destruct (modules st !! filename (heap st m)) as [have|] eqn:Hc.
      * destruct (Nat.eqb_spec have m) as [->|Hne]; intros [= <- <-] k x Hk;
          [|exact Hk].
        simpl. destruct (decide (filename (heap st m) = k)) as [<-|Hk'].
        -- rewrite lookup_insert_eq. congruence.
        -- by rewrite lookup_insert_ne.
      * intros [= <- <-] k x Hk. simpl.
        rewrite lookup_insert_ne; [exact Hk|]. intros <-. congruence.
    + apply IH.
Qed.

(** X2: [Context.resolve] never removes or replaces a cache entry,
    whatever its outcome; the module it returns is afterwards the one
    cached under its filename; and while a filename is cached, every
    resolution that returns a module with that filename returns the
    cached object itself. *)
Theorem Context_resolve_identity (W : Env) (st : State)
    (request : string + Request) (dir : option string) (sp : list string)
    (out : outcome ref) (st' : State) :
  Context_resolve W st request dir sp = (out, st') ->
  (forall k x, modules st !! k = Some x -> modules st' !! k = Some x)
  /\ (forall m, out = Ret m ->
        modules st' !! filename (heap st' m) = Some m
        /\ (forall have_module,
              modules st !! filename (heap st m) = Some have_module ->
              m = have_module)).
Proof.
  intros H. split.
  - exact (resolve_loop_keeps _ _ _ _ _ _ H).
  - intros m ->.
    pose proof (resolve_loop_keeps _ _ _ _ _ _ H) as Hkeep.
    pose proof (Context_resolve_frame _ _ _ _ _ _ _ H) as (Hh & _).
    apply resolve_loop_state in H. rewrite Hh. subst st'. simpl in *.
    split; [apply lookup_insert_eq|].
    intros have Hc. specialize (Hkeep _ _ Hc).
    rewrite lookup_insert_eq in Hkeep. congruence.
Qed.

(** ** What a call leaves behind *)

Lemma settled_refl st : settled st st.
Proof. repeat split; auto. Qed.

Lemma settled_trans a b c : settled a b -> settled b c -> settled a c.
Proof.
  intros ((Hl1 & He1) & Hc1 & Hm1) ((Hl2 & He2) & Hc2 & Hm2).
  split; [split|split].
  - auto.
  - auto.
  - intros x Hx. rewrite Hc2, Hc1; [done|done|].
    destruct Hx as [Hx|Hx]; [left|right]; auto.
  - intros k x Hk. destruct (Hm1 k x Hk) as [Hb|(m & Ha & Hb)].
    + destruct (Hm2 k x Hb) as [Hcc|(m & Hb' & Hcc)]; [by left|].
      right. exists m. split; [|exact Hcc].
      destruct (exception (heap a m)) eqn:Ea; [|done].
      exfalso. apply (He1 m); [by rewrite Ea|exact Hb'].
    + right. exists m. split; [exact Ha|]. by apply He2.
Qed.

(** Changing one module object without taking a mark away. *)
Lemma settled_set_module m o st :
  (loaded (heap st m) = true -> loaded o = true) ->
  (exception (heap st m) <> None -> exception o <> None) ->
  settled st (set_module m o st).
Proof.
  intros Hl He. unfold settled, stays_flagged, set_module. simpl.
  repeat split; auto.
  - intros x. destruct (Nat.eqb_spec x m) as [->|]; auto.
  - intros x. destruct (Nat.eqb_spec x m) as [->|]; auto.
Qed.

Lemma settled_resolve W st f request out st' :
  Require_resolve W st f request = (out, st') -> settled st st'.
Proof.
  intros H.
  pose proof (Require_resolve_frame _ _ _ _ _ _ H) as (Hh & _ & Hlog).
  unfold settled, stays_flagged, flagged, count_loads. rewrite Hh, Hlog.
  repeat split; auto.
  intros k x Hk. left. revert H. unfold Require_resolve.
  destruct (Context_resolve W st (inl request) (Some (directory (requires st f)))
              (path (requires st f))) as [o s1] eqn:E.
  pose proof (resolve_loop_keeps _ _ _ _ _ _ E k x Hk) as Hs1.
  destruct (cache (requires st f) !! request) as [m|];
    [destruct (exception (heap st m))|];
    destruct o; intros [= <- <-]; auto.
Qed.

Lemma exec_body_settled W call b self st out st' :
  (forall s f request want o s',
      call s f request want = (o, s') -> o <> OutOfFuel -> settled s s') ->
  exec_body W call b self st = (out, st') ->
  out <> OutOfFuel -> settled st st'.
Proof.
  intros Hcall.
  apply (exec_body_rel W settled); auto using settled_refl.
  - apply settled_trans.
  - intros s m v. by apply settled_set_module.
  - intros s m name v. by apply settled_set_module.
  - intros s m. by apply settled_set_module.
  - intros s f request o s'. apply settled_resolve.
Qed.

(** What the clauses after [module.load()] change: the marks of [m], the
    cache entry under its filename when the load raised, the stack. *)
Lemma load_after_shape m o s2 out st' :
  load_after m (o, s2) = (out, st') ->
  o <> OutOfFuel ->
  load_log st' = load_log s2
  /\ (forall x, x <> m -> heap st' x = heap s2 x)
  /\ (loaded (heap s2 m) = true -> loaded (heap st' m) = true)
  /\ (exception (heap s2 m) <> None -> exception (heap st' m) <> None)
  /\ (forall e, o = Exc e -> exception (heap st' m) = Some e)
  /\ (forall k x, modules s2 !! k = Some x ->
        modules st' !! k = Some x \/ exists e, o = Exc e).
Proof.
  intros H Hf.
  assert (Hfin : forall pending s,
             load_log (snd (load_finally m pending s)) = load_log s
             /\ heap (snd (load_finally m pending s)) = heap s
             /\ modules (snd (load_finally m pending s)) = modules s).
  { intros pending s. unfold load_finally.
    destruct (module_stack s) as [|top rest]; [done|].
    by destruct (Nat.eqb top m). }
  assert (Hst' : st' = snd (load_after m (o, s2))) by (by rewrite H).
  clear H. subst st'. unfold load_after.
  destruct o as [[]|e|]; [| |by destruct Hf].
  - destruct (Hfin (Ret tt) (set_loaded m true s2)) as (-> & -> & ->).
    simpl. rewrite Nat.eqb_refl. simpl.
    repeat split; auto; try discriminate.
    intros x Hx. by destruct (Nat.eqb_spec x m).
  - set (s3 := set_exception m (Some e) s2).
    assert (H3 : load_log s3 = load_log s2
                 /\ (forall x, x <> m -> heap s3 x = heap s2 x)
                 /\ (loaded (heap s2 m) = true -> loaded (heap s3 m) = true)
                 /\ exception (heap s3 m) = Some e
                 /\ modules s3 = modules s2).
    { subst s3. simpl. rewrite Nat.eqb_refl. simpl. repeat split; auto.
      intros x Hx. by destruct (Nat.eqb_spec x m). }
    destruct H3 as (Hlog & Hheap & Hl & He & Hm). clearbody s3.
    destruct (modules s3 !! filename (heap s3 m)).
    + destruct (Hfin (Exc e) (set_modules (delete (filename (heap s3 m)) (modules s3)) s3))
        as (-> & -> & ->).
      simpl. repeat split; auto.
      * intros _. by rewrite He.
      * intros e' [= <-]. exact He.
      * intros k x _. right. by exists e.
    + destruct (Hfin (Exc (KeyError (filename (heap s3 m)))) s3) as (-> & -> & ->).
      repeat split; auto.
      * intros _. by rewrite He.
      * intros e' [= <-]. exact He.
      * intros k x _. right. by exists e.
Qed.

Lemma Context_load_module_settled W call st m do_init out st' :
  (forall s f request want o s',
      call s f request want = (o, s') -> o <> OutOfFuel -> settled s s') ->
  Context_load_module W call st m do_init = (out, st') ->
  out <> OutOfFuel -> settled st st'.
Proof.
  intros Hcall. unfold Context_load_module.
  destruct (exception (heap st m)) eqn:He;
    [intros [= <- <-] _; apply settled_refl|].
  destruct (loaded (heap st m)) eqn:Hl;
    [intros [= <- <-] _; apply settled_refl|].
  destruct (modules st !! filename (heap st m));
    [|intros [= <- <-] _; apply settled_refl].
  destruct (if do_init then Module_init W m (heap st m) else inr (heap st m))
    as [e|o1]; [intros [= <- <-] _; apply settled_refl|].
  set (s0 := log_load m _).
  destruct (exec_body W call (Module_load W m) m s0) as [o s2] eqn:E.
  intros H Hf.
  assert (Ho : o <> OutOfFuel).
  { intros ->. unfold load_after in H. apply (f_equal fst) in H.
    simpl in H. subst out. by destruct Hf. }
  pose proof (exec_body_settled _ _ _ _ _ _ _ Hcall E Ho)
    as ((Hl2 & He2) & Hc2 & Hm2).
  destruct (load_after_shape _ _ _ _ _ H Ho)
    as (Hlog & Hheap & Hla & Hea & Hexc & Hmod).
  assert (H0 : forall x, x <> m -> heap s0 x = heap st x).
  { intros x Hx. subst s0. simpl. by destruct (Nat.eqb_spec x m). }
  assert (Hloaded : forall x, loaded (heap st x) = true -> loaded (heap st' x) = true).
  { intros x Hx. assert (x <> m) by congruence.
    rewrite Hheap by done. apply Hl2. by rewrite H0. }
  assert (Hexception : forall x, exception (heap st x) <> None ->
                                 exception (heap st' x) <> None).
  { intros x Hx. assert (x <> m) by congruence.
    rewrite Hheap by done. apply He2. by rewrite H0. }
  split; [by split|split].
  - intros x Hx.
    assert (Hxm : x <> m).
    { intros ->. unfold flagged in Hx. rewrite He, Hl in Hx.
      destruct Hx; congruence. }
    unfold count_loads. rewrite Hlog.
    fold (count_loads x s2). rewrite Hc2.
    + subst s0. unfold count_loads. simpl.
      destruct (Nat.eqb_spec m x); [congruence|reflexivity].
    + unfold flagged. by rewrite H0.
  - intros k x Hk.
    destruct (Hm2 k x Hk) as [Hk2|(m' & Hn & Hs)].
    + destruct (Hmod k x Hk2) as [?|[e Hoe]]; [by left|].
      right. exists m. split; [exact He|]. by rewrite (Hexc e Hoe).
    + right. exists m'. destruct (Nat.eqb_spec m' m) as [->|Hne].
      * split; [exact He|]. by apply Hea.
      * split; [by rewrite <- H0|]. by rewrite Hheap.
Qed.

Lemma Require_call_settled fuel W st f request want out st' :
  Require_call fuel W st f request want = (out, st') ->
  out <> OutOfFuel -> settled st st'.
Proof.
  revert st f request want out st'.
  induction fuel as [|fuel IH]; intros st f request want out st'.
  - intros [= <- <-] Hf. by destruct Hf.
  - rewrite Require_call_S. unfold Require_call_step.
    destruct (Require_resolve W st f request) as [o s1] eqn:E.
    pose proof (settled_resolve _ _ _ _ _ _ E) as K1.
    destruct o as [m|e|]; [|by intros [= <- <-]|by intros [= <- <-] Hf; destruct Hf].
    destruct (loaded (heap s1 m)).
    + by intros [= <- <-].
    + destruct (Context_load_module W (Require_call fuel W) s1 m true)
        as [o s2] eqn:E2.
      pose proof (Context_load_module_settled _ _ _ _ _ _ _ IH E2) as K2.
      destruct o as [[]|e|]; intros [= <- <-] Hf;
        (eapply settled_trans; [exact K1|apply K2; done]).
Qed.

Lemma Require_try_settled fuel W st f requests do_load want out st' :
  Require_try_ fuel W st f requests do_load want = (out, st') ->
  out <> OutOfFuel -> settled st st'.
Proof.
  unfold Require_try_, try_.
  apply (try_loop_rel W settled); auto using settled_refl.
  - apply settled_trans.
  - intros s g request o s'. apply settled_resolve.
  - intros s g request w o s'. apply Require_call_settled.
Qed.

Lemma load_module_settled fuel W st m do_init out st' :
  load_module fuel W st m do_init = (out, st') ->
  out <> OutOfFuel -> settled st st'.
Proof.
  apply Context_load_module_settled.
  intros s f request want o s'. apply Require_call_settled.
Qed.

Lemma finished_settled fuel W st st' : finished fuel W st st' -> settled st st'.
Proof.
  intros [(f & request & want & out & H & Hf)
         |[(f & requests & do_load & want & out & H & Hf)
          |(m & do_init & out & H & Hf)]].
  - exact (Require_call_settled _ _ _ _ _ _ _ _ H Hf).
  - exact (Require_try_settled _ _ _ _ _ _ _ _ _ H Hf).
  - exact (load_module_settled _ _ _ _ _ _ _ H Hf).
Qed.

(** X3: across any finished [require], [try_] or [load_module], a module
    that is marked loaded stays marked loaded, a stored exception is never
    cleared, and the load procedure of a module that was already marked
    loaded or carried a stored exception is not run: its number of loads
    is the same afterwards.  This needs nothing from the loader. *)
Theorem marked_module_not_reloaded (fuel : nat) (W : Env) (st st' : State) :
  finished fuel W st st' ->
  forall x,
    (loaded (heap st x) = true -> loaded (heap st' x) = true)
    /\ (exception (heap st x) <> None -> exception (heap st' x) <> None)
    /\ (loaded (heap st x) = true \/ exception (heap st x) <> None ->
        count_loads x st' = count_loads x st).
Proof.
  intros H x. destruct (finished_settled _ _ _ _ H) as ((Hl & He) & Hc & _).
  split; [apply Hl|]. split; [apply He|]. apply Hc.
Qed.

(** X4: a cache entry goes away, or comes to hold another object, only
    through a failed load: after any finished [require], [try_] or
    [load_module], every entry of [Context.modules] is as it was, unless
    some module that had no stored exception before has one now. *)
Theorem eviction_only_on_failure (fuel : nat) (W : Env) (st st' : State) :
  finished fuel W st st' ->
  (forall k x,
      modules st !! k = Some x ->
      modules st' !! k = Some x
      \/ exists m, exception (heap st m) = None
                   /\ exception (heap st' m) <> None)
  /\ ((forall m, exception (heap st m) = None -> exception (heap st' m) = None) ->
      forall k x, modules st !! k = Some x -> modules st' !! k = Some x).
Proof.
  intros H. destruct (finished_settled _ _ _ _ H) as (_ & _ & Hm).
  split; [exact Hm|].
  intros Hnone k x Hk. destruct (Hm k x Hk) as [?|(m & Hb & Ha)]; [done|].
  by rewrite (Hnone m Hb) in Ha.
Qed.

(** ** Resolving without loading *)

Lemma Require_resolve_exc W st f request e st' :
  Require_resolve W st f request = (Exc e, st') -> st' = st.
Proof.
  unfold Require_resolve.
  destruct (Context_resolve W st (inl request) (Some (directory (requires st f)))
              (path (requires st f))) as [o s1] eqn:E.
  apply resolve_loop_state in E.
  destruct (cache (requires st f) !! request) as [m|];
    [destruct (exception (heap st m))|];
    destruct o; try discriminate; try contradiction;
    intros [= <- <-]; exact E.
Qed.

Lemma Require_resolve_fuel W st f request st' :
  Require_resolve W st f request <> (OutOfFuel, st').
Proof.
  unfold Require_resolve.
  destruct (Context_resolve W st (inl request) (Some (directory (requires st f)))
              (path (requires st f))) as [o s1] eqn:E.
  apply resolve_loop_state in E.
  destruct (cache (requires st f) !! request) as [m|];
    [destruct (exception (heap st m))|]; destruct o; try discriminate;
    contradiction.
Qed.

Lemma try_loop_resolve_only W call call' requests st f want ei :
  try_loop W call st f requests false want ei
  = try_loop W call' st f requests false want ei.
Proof.
  revert st ei. induction requests as [|r rest IH]; intros st ei; simpl;
    [reflexivity|].
  unfold attempt.
  destruct (Require_resolve W st f r) as [[m|e|] s1]; try reflexivity.
  destruct e; try reflexivity.
  destruct (String.eqb (req_string request) r); [apply IH|reflexivity].
Qed.

Lemma try_loop_resolve_state W call requests st f want ei out st' :
  try_loop W call st f requests false want ei = (out, st') ->
  out <> OutOfFuel
  /\ (forall e, out = Exc e -> st' = st)
  /\ (forall v, out = Ret v -> exists m, v = VModule m).
Proof.
  revert st ei. induction requests as [|r rest IH]; intros st ei; simpl.
  - destruct ei; intros [= <- <-]; repeat split; try discriminate; done.
  - unfold attempt.
    destruct (Require_resolve W st f r) as [[m|e|] s1] eqn:E.
    + intros [= <- <-]. repeat split; try discriminate.
      intros v [= <-]. by exists m.
    + apply Require_resolve_exc in E as ->.
      destruct e; try (intros [= <- <-]; repeat split; try discriminate; done).
      destruct (String.eqb (req_string request) r); [apply IH|].
      intros [= <- <-]; repeat split; try discriminate; done.
    + by destruct (Require_resolve_fuel _ _ _ _ _ E).
Qed.

(** X5: [Require.try_] with [load=False] only resolves.  It comes to an
    end whatever the fuel, never runs a load procedure, leaves every
    module object and the load stack alone, hands back a module object
    when it returns, and when it raises (no requests, nothing found, or
    an error of a resolver) the state is exactly what it was. *)
Theorem try_without_load (fuel : nat) (W : Env) (st : State) (f : fref)
    (requests : list string) (want : bool) (out : outcome value) (st' : State) :
  Require_try_ fuel W st f requests false want = (out, st') ->
  out <> OutOfFuel
  /\ heap st' = heap st
  /\ module_stack st' = module_stack st
  /\ load_log st' = load_log st
  /\ (forall e, out = Exc e -> st' = st)
  /\ (forall v, out = Ret v -> exists m, v = VModule m)
  /\ (forall fuel', Require_try_ fuel' W st f requests false want = (out, st')).
Proof.
  unfold Require_try_, try_. intros H.
  destruct (try_loop_resolve_state _ _ _ _ _ _ _ _ _ H) as (Hf & Hexc & Hret).
  assert (Hframe : heap st' = heap st /\ module_stack st' = module_stack st
                   /\ load_log st' = load_log st).
  { rewrite (try_loop_resolve_only W _ (fun s _ _ _ => (OutOfFuel, s))) in H.
    revert H Hf.
    apply (try_loop_rel W (fun s s' => heap s' = heap s
                                       /\ module_stack s' = module_stack s
                                       /\ load_log s' = load_log s)
             ltac:(done)).
    - intros a b c (-> & -> & ->) (-> & -> & ->). done.
    - intros s g request o s'. apply Require_resolve_frame.
    - intros s g request w o s' [= <- <-] Ho. by destruct Ho. }
  destruct Hframe as (Hh & Hs & Hl).
  repeat split; try done.
  intros fuel'. rewrite <- H. apply try_loop_resolve_only.
Qed.

(** ** Requiring again *)





(** ** Trying again after a failed load *)





(** ** The caches of the facades *)

(** What one [Require.resolve] does to the caches: only the entry of the
    request asked for, in the facade asked, can change, and it changes
    only when it was missing or held a module with a stored exception. *)
Lemma Require_resolve_caches W st f request out st' :
  Require_resolve W st f request = (out, st') ->
  (forall g r2, g <> f \/ r2 <> request ->
     cache (requires st' g) !! r2 = cache (requires st g) !! r2)
  /\ (forall g, directory (requires st' g) = directory (requires st g)
                /\ path (requires st' g) = path (requires st g))
  /\ (forall m, cache (requires st f) !! request = Some m ->
        cache (requires st' f) !! request = Some m
        \/ exception (heap st m) <> None).
Proof.
  unfold Require_resolve.
  destruct (Context_resolve W st (inl request) (Some (directory (requires st f)))
              (path (requires st f))) as [o s1] eqn:E.
  apply Context_resolve_frame in E as (_ & _ & _ & Hreq).
  assert (Hfresh :
             (forall m0, cache (requires st f) !! request = Some m0 ->
                         exception (heap st m0) <> None) ->
             match o with
             | Ret m => (Ret m, set_cache f request m s1)
             | Exc e => (Exc e, s1)
             | OutOfFuel => (OutOfFuel, s1)
             end = (out, st') ->
             (forall g r2, g <> f \/ r2 <> request ->
                cache (requires st' g) !! r2 = cache (requires st g) !! r2)
             /\ (forall g, directory (requires st' g) = directory (requires st g)
                           /\ path (requires st' g) = path (requires st g))
             /\ (forall m, cache (requires st f) !! request = Some m ->
                   cache (requires st' f) !! request = Some m
                   \/ exception (heap st m) <> None)).
  { intros Hold H.
    destruct o as [m| |]; injection H as <- <-; rewrite ?Hreq.
    - unfold set_cache. simpl. rewrite Hreq. split; [|split].
      + intros g r2 Hne. destruct (Nat.eqb_spec g f) as [->|]; [|done].
        simpl. destruct Hne as [Hne|Hne]; [done|].
        by rewrite lookup_insert_ne.
      + intros g. by destruct (Nat.eqb_spec g f) as [->|].
      + intros m1 Hc. right. by apply Hold.
    - repeat split; auto.
    - repeat split; auto. }
  destruct (cache (requires st f) !! request) as [m|] eqn:Hc.
  - destruct (exception (heap st m)) eqn:He.
    + destruct o; apply Hfresh; try done;
        intros m0 [= <-]; by rewrite He.
    + intros [= <- <-]. repeat split; auto.
      intros m0 [= <-]. by left.
  - destruct o; apply Hfresh; done.
Qed.

Lemma kept_refl st : kept st st.
Proof. split; [apply settled_refl|]. intros f request m H. by left. Qed.

Lemma kept_trans a b c : kept a b -> kept b c -> kept a c.
Proof.
  intros [S1 C1] [S2 C2]. split; [by eapply settled_trans|].
  intros f request m H. destruct (C1 f request m H) as [Hb|Hb].
  - apply C2, Hb.
  - right. destruct S2 as ((_ & He) & _). by apply He.
Qed.

Lemma kept_set_module m o st :
  (loaded (heap st m) = true -> loaded o = true) ->
  (exception (heap st m) <> None -> exception o <> None) ->
  kept st (set_module m o st).
Proof.
  intros Hl He. split; [by apply settled_set_module|].
  intros f request x H. by left.
Qed.

Lemma kept_resolve W st f request out st' :
  Require_resolve W st f request = (out, st') -> kept st st'.
Proof.
  intros H. split; [by eapply settled_resolve|].
  pose proof (Require_resolve_frame _ _ _ _ _ _ H) as (Hh & _).
  destruct (Require_resolve_caches _ _ _ _ _ _ H) as (Hother & _ & Hsame).
  intros g r2 m Hc.
  destruct (decide (g = f)) as [->|Hg];
    [destruct (decide (r2 = request)) as [->|Hr]|].
  - rewrite Hh. by apply Hsame.
  - left. rewrite Hother; auto.
  - left. rewrite Hother; auto.
Qed.

Lemma kept_Context_resolve W st request dir sp out st' :
  Context_resolve W st request dir sp = (out, st') -> kept st st'.
Proof.
  intros H.
  pose proof (Context_resolve_frame _ _ _ _ _ _ _ H) as (Hh & _ & Hl & Hr).
  split.
  - unfold settled, stays_flagged, flagged, count_loads. rewrite Hh, Hl.
    repeat split; auto.
    intros k x Hk. left. exact (resolve_loop_keeps _ _ _ _ _ _ H k x Hk).
  - intros f r m Hc. left. by rewrite Hr.
Qed.

Lemma exec_body_kept W call b self st out st' :
  (forall s f request want o s',
      call s f request want = (o, s') -> o <> OutOfFuel -> kept s s') ->
  exec_body W call b self st = (out, st') ->
  out <> OutOfFuel -> kept st st'.
Proof.
  intros Hcall.
  apply (exec_body_rel W kept); auto using kept_refl.
  - apply kept_trans.
  - intros s m v. by apply kept_set_module.
  - intros s m name v. by apply kept_set_module.
  - intros s m. by apply kept_set_module.
  - intros s f request o s'. apply kept_resolve.
Qed.

Lemma load_after_requires m r :
  requires (snd (load_after m r)) = requires (snd r).
Proof.
  assert (Hfin : forall pending s,
             requires (snd (load_finally m pending s)) = requires s).
  { intros pending s. unfold load_finally.
    destruct (module_stack s) as [|top rest]; [reflexivity|].
    destruct (Nat.eqb top m); reflexivity. }
  destruct r as [[[]|e|] s]; unfold load_after; [| |reflexivity].
  - by rewrite Hfin.
  - destruct (modules (set_exception m (Some e) s) !! _); by rewrite Hfin.
Qed.

Lemma Context_load_module_kept W call st m do_init out st' :
  (forall s f request want o s',
      call s f request want = (o, s') -> o <> OutOfFuel -> kept s s') ->
  Context_load_module W call st m do_init = (out, st') ->
  out <> OutOfFuel -> kept st st'.
Proof.
  intros Hcall H Hf.
  split.
  { revert H Hf. apply Context_load_module_settled.
    intros s f request want o s' Hs Ho. by destruct (Hcall _ _ _ _ _ _ Hs Ho). }
  revert H. unfold Context_load_module.
  assert (Hrefl : caches_kept st st) by (intros f request x Hx; by left).
  destruct (exception (heap st m)) eqn:He; [by intros [= <- <-]|].
  destruct (loaded (heap st m)) eqn:Hl; [by intros [= <- <-]|].
  destruct (modules st !! filename (heap st m)); [|by intros [= <- <-]].
  destruct (if do_init then Module_init W m (heap st m) else inr (heap st m))
    as [e|o1]; [by intros [= <- <-]|].
  set (s0 := log_load m _).
  destruct (exec_body W call (Module_load W m) m s0) as [o s2] eqn:E.
  intros H.
  assert (Ho : o <> OutOfFuel).
  { intros ->. unfold load_after in H. apply (f_equal fst) in H.
    simpl in H. subst out. by destruct Hf. }
  destruct (exec_body_kept _ _ _ _ _ _ _ Hcall E Ho) as [_ Hc2].
  destruct (load_after_shape _ _ _ _ _ H Ho) as (_ & Hheap & _ & Hea & _).
  pose proof (load_after_requires m (o, s2)) as Hreq.
  rewrite H in Hreq. simpl in Hreq.
  intros f request x Hx.
  destruct (Hc2 f request x) as [Hk|Hk].
  - subst s0. simpl. exact Hx.
  - left. by rewrite Hreq.
  - right. destruct (Nat.eqb_spec x m) as [->|Hne].
    + by apply Hea.
    + by rewrite Hheap.
Qed.

Lemma Require_call_kept fuel W st f request want out st' :
  Require_call fuel W st f request want = (out, st') ->
  out <> OutOfFuel -> kept st st'.
Proof.
  revert st f request want out st'.
  induction fuel as [|fuel IH]; intros st f request want out st'.
  - intros [= <- <-] Hf. by destruct Hf.
  - rewrite Require_call_S. unfold Require_call_step.
    destruct (Require_resolve W st f request) as [o s1] eqn:E.
    pose proof (kept_resolve _ _ _ _ _ _ E) as K1.
    destruct o as [m|e|]; [|by intros [= <- <-]|by intros [= <- <-] Hf; destruct Hf].
    destruct (loaded (heap s1 m)).
    + by intros [= <- <-].
    + destruct (Context_load_module W (Require_call fuel W) s1 m true)
        as [o s2] eqn:E2.
      pose proof (Context_load_module_kept _ _ _ _ _ _ _ IH E2) as K2.
      destruct o as [[]|e|]; intros [= <- <-] Hf;
        (eapply kept_trans; [exact K1|apply K2; done]).
Qed.

Lemma finished_kept fuel W st st' : finished fuel W st st' -> kept st st'.
Proof.
  intros [(f & request & want & out & H & Hf)
         |[(f & requests & do_load & want & out & H & Hf)
          |(m & do_init & out & H & Hf)]].
  - exact (Require_call_kept _ _ _ _ _ _ _ _ H Hf).
  - revert H Hf. unfold Require_try_, try_.
    apply (try_loop_rel W kept); auto using kept_refl.
    + apply kept_trans.
    + intros s g request o s'. apply kept_resolve.
    + intros s g request w o s'. apply Require_call_kept.
  - revert H Hf. apply Context_load_module_kept.
    intros s f request want o s'. apply Require_call_kept.
Qed.

Lemma later_kept W st st' : later W st st' -> kept st st'.
Proof.
  induction 1 as [st|st st1 st2 _ IH Hstep]; [apply kept_refl|].
  eapply kept_trans; [exact IH|].
  destruct Hstep as [[fuel H]|[(f & request & out & H)
                                |(request & dir & sp & out & H)]].
  - by eapply finished_kept.
  - by eapply kept_resolve.
  - by eapply kept_Context_resolve.
Qed.

(** C7: [Require.resolve] answers from the facade's own cache, by request
    string, when the cached module has no stored error, and then neither
    the engine nor the state is touched; when there is no entry, or the
    cached module carries a stored error, it walks the engine's resolver
    chain again and stores the module it gets under the request string.
    A resolve changes no other entry of the facade and nothing in any
    other facade; and an entry, once there, stays through whatever the
    engine is used for later ([require], [try_], [load_module],
    [resolve] on any facade), as long as its module carries no stored
    error: the facade then hands back that same object without asking
    the engine. *)
Theorem Require_resolve_memo (W : Env) (st : State) (f : fref) (request : string) :
  let self := requires st f in
  (forall m, cache self !! request = Some m ->
             exception (heap st m) = None ->
             forall W', Require_resolve W' st f request = (Ret m, st))
  /\ (cache self !! request = None
      \/ (exists m e, cache self !! request = Some m
                      /\ exception (heap st m) = Some e) ->
      match Context_resolve W st (inl request) (Some (directory self)) (path self) with
      | (Ret m, st1) =>
          Require_resolve W st f request = (Ret m, set_cache f request m st1)
      | r => Require_resolve W st f request = r
      end)
  /\ (forall m st1,
        Require_resolve W st f request = (Ret m, st1) ->
        cache (requires st1 f) !! request = Some m
        /\ (exception (heap st1 m) = None ->
            forall W', Require_resolve W' st1 f request = (Ret m, st1)))
  /\ (forall out st1,
        Require_resolve W st f request = (out, st1) ->
        (forall g r2, g <> f \/ r2 <> request ->
           cache (requires st1 g) !! r2 = cache (requires st g) !! r2)
        /\ (forall g, directory (requires st1 g) = directory (requires st g)
                      /\ path (requires st1 g) = path (requires st g)))
  /\ (forall m st2,
        cache self !! request = Some m ->
        later W st st2 ->
        exception (heap st2 m) = None ->
        cache (requires st2 f) !! request = Some m
        /\ forall W', Require_resolve W' st2 f request = (Ret m, st2)).
Proof.
  intros self.
  assert (Hhit : forall s m, cache (requires s f) !! request = Some m ->
                 exception (heap s m) = None ->
                 forall W', Require_resolve W' s f request = (Ret m, s)).
  { intros s m Hc He W'. unfold Require_resolve. by rewrite Hc, He. }
  split; [exact (Hhit st)|]. split; [|split; [|split]].
  - intros Hmiss. unfold Require_resolve. fold self.
    destruct Hmiss as [-> | (m & e & -> & ->)];
      by destruct (Context_resolve W st (inl request) (Some (directory self))
                     (path self)) as [[]].
  - intros m st1 H.
    assert (Hc : cache (requires st1 f) !! request = Some m).
    { revert H. unfold Require_resolve. fold self.
      destruct (Context_resolve W st (inl request) (Some (directory self))
                  (path self)) as [[m1| |] s1];
        destruct (cache self !! request) as [m0|] eqn:Hc;
        [destruct (exception (heap st m0))| |destruct (exception (heap st m0))|
        |destruct (exception (heap st m0))|];
        intros [= <- <-]; try apply set_cache_lookup; exact Hc. }
    split; [exact Hc|]. intros He. by apply Hhit.
  - intros out st1 H.
    destruct (Require_resolve_caches _ _ _ _ _ _ H) as (Hother & Hdir & _).
    by split.
  - intros m st2 Hc Hlater He.
    destruct (later_kept _ _ _ Hlater) as [_ Hkept].
    destruct (Hkept f request m Hc) as [Hc2|Hexc]; [|by destruct Hexc].
    split; [exact Hc2|]. by apply Hhit.
Qed.

(** * Properties of the registration *)

Lemma checked_Some v lo hi s :
  0 < lo ->
  checked v lo hi = Some s <-> v = Some s /\ lo <= length s <= hi.
Proof.
  intros Hlo. unfold checked. destruct v as [t|]; [|split; [done|by intros []]].
  destruct (decide (t = [])) as [->|Hne].
  - rewrite bool_decide_eq_true_2 by done. simpl.
    split; [done|]. intros [[= <-] H]. simpl in H. lia.
  - rewrite bool_decide_eq_false_2 by done. simpl.
    destruct (Nat.ltb_spec (length t) lo); simpl.
    + split; [done|]. intros [[= <-] H']. lia.
    + destruct (Nat.ltb_spec hi (length t)).
      * split; [done|]. intros [[= <-] H']. lia.
      * split; [intros [= <-]; split; [done|lia]|by intros [[= <-] _]].
Qed.

Lemma first_named_None db u :
  first_named db u = None <-> Forall (fun x => name x <> u) db.
Proof.
  unfold first_named. induction db as [|x db IH]; simpl.
  - split; [constructor|done].
  - destruct (decide (name x = u)) as [Heq|Hne].
    + rewrite bool_decide_eq_true_2 by done.
      split; [done|]. intros H. by apply Forall_cons in H as [? _].
    + rewrite bool_decide_eq_false_2 by done. rewrite IH. split.
      * intros H. by apply Forall_cons.
      * intros H. by apply Forall_cons in H as [_ ?].
Qed.

Lemma first_named_last db x :
  first_named db (name x) = None ->
  first_named (db ++ [x]) (name x) = Some x.
Proof.
  unfold first_named. induction db as [|y db IH]; simpl.
  - intros _. by rewrite bool_decide_eq_true_2.
  - destruct (bool_decide (name y = name x)); [done|exact IH].
Qed.

(** What [register] does in each case, in one place. *)
Lemma register_cases h form db :
  (exists u p e,
      field_ok form "username" 3 24 u /\ field_ok form "password" 6 64 p
      /\ field_ok form "email" 4 64 e /\ first_named db u = None
      /\ code (fst (register h form db)) = 200
      /\ snd (register h form db) = db ++ [mkUser u (h p) e])
  \/ (code (fst (register h form db)) = 400
      /\ snd (register h form db) = db
      /\ ~ (exists u p e,
              field_ok form "username" 3 24 u /\ field_ok form "password" 6 64 p
              /\ field_ok form "email" 4 64 e /\ first_named db u = None)).
Proof.
  unfold register, field_ok.
  destruct (checked (form !! "username") 3 24) as [u|] eqn:Eu.
  2:{ right. repeat split; try done. intros (u & p & e & Hu & _).
      apply (checked_Some _ 3 24 u ltac:(lia)) in Hu. congruence. }
  destruct (checked (form !! "password") 6 64) as [p|] eqn:Ep.
  2:{ right. repeat split; try done. intros (u' & p & e & _ & Hp & _).
      apply (checked_Some _ 6 64 p ltac:(lia)) in Hp. congruence. }
  destruct (checked (form !! "email") 4 64) as [e|] eqn:Ee.
  2:{ right. repeat split; try done. intros (u' & p' & e & _ & _ & He & _).
      apply (checked_Some _ 4 64 e ltac:(lia)) in He. congruence. }
  apply checked_Some in Eu as [Hu Hlu]; [|lia].
  apply checked_Some in Ep as [Hp Hlp]; [|lia].
  apply checked_Some in Ee as [He Hle]; [|lia].
  destruct (first_named db u) as [x|] eqn:Ef.
  - right. repeat split; try done.
    intros (u' & p' & e' & [Hu' _] & _ & _ & Hn). congruence.
  - left. exists u, p, e. repeat split; try done; lia.
Qed.

(** X7: [register] answers 200 exactly when the form carries a username
    of 3 to 24 characters, a password of 6 to 64 and an email of 4 to 64
    (counted in code points, as [len] does) and no stored user has that
    name; it then adds one user, at the end, with the hash of the
    password and never the password itself; in every other case it
    answers 400 and the collection is untouched. *)
Theorem register_outcome (h : list N -> list N) (form : gmap string (list N))
    (db : list User) :
  let r := register h form db in
  (code (fst r) = 200 <->
     exists u p e,
       field_ok form "username" 3 24 u /\ field_ok form "password" 6 64 p
       /\ field_ok form "email" 4 64 e /\ Forall (fun x => name x <> u) db)
  /\ (code (fst r) = 200 ->
      exists u p e,
        form !! "username" = Some u /\ form !! "password" = Some p
        /\ form !! "email" = Some e
        /\ snd r = db ++ [mkUser u (h p) e])
  /\ (code (fst r) <> 200 -> code (fst r) = 400 /\ snd r = db).
Proof.
  intros r. subst r.
  destruct (register_cases h form db)
    as [(u & p & e & Hu & Hp & He & Hn & Hc & Hdb)|(Hc & Hdb & Hno)].
  - split; [|split].
    + split; [|done]. intros _. exists u, p, e.
      by rewrite <- first_named_None.
    + intros _. exists u, p, e. destruct Hu, Hp, He. done.
    + intros H. by destruct H.
  - split; [|split].
    + split; [intros H; rewrite Hc in H; discriminate|].
      intros (u & p & e & Hu & Hp & He & Hn). destruct Hno.
      exists u, p, e. by rewrite first_named_None.
    + intros H. rewrite Hc in H. discriminate.
    + done.
Qed.

(** X8: [register] keeps user names unique: if no two stored users share
    a name, the same holds for the collection it leaves. *)
Theorem register_unique_names (h : list N -> list N)
    (form : gmap string (list N)) (db : list User) :
  NoDup (map name db) ->
  NoDup (map name (snd (register h form db))).
Proof.
  intros Hnd.
  destruct (register_cases h form db)
    as [(u & p & e & _ & _ & _ & Hn & _ & ->)|(_ & -> & _)]; [|exact Hnd].
  rewrite map_app. simpl. apply NoDup_app. split; [exact Hnd|].
  split; [|apply NoDup_singleton].
  intros x Hx Hin. apply list_elem_of_singleton in Hin as ->.
  apply first_named_None in Hn.
  apply list_elem_of_fmap in Hx as (y & Hy & Hin).
  rewrite Forall_forall in Hn. by apply (Hn y Hin).
Qed.

(** X9: after a registration that was answered 200, the name is taken and
    the password can be checked: the password lookup [get_pw] for that
    name gives what the hashing callback [hash_pw] makes of the
    registered password, and every further [register] for that name, with
    whatever other fields, is answered 400 and changes nothing. *)
Theorem register_then_login (h : list N -> list N) (form : gmap string (list N))
    (db : list User) (u p : list N) :
  code (fst (register h form db)) = 200 ->
  form !! "username" = Some u ->
  form !! "password" = Some p ->
  let db' := snd (register h form db) in
  get_pw db' u = Some (hash_pw h u p)
  /\ (forall h' form',
        form' !! "username" = Some u ->
        code (fst (register h' form' db')) = 400
        /\ snd (register h' form' db') = db').
Proof.
  intros H200 Hu Hp db'. subst db'.
  destruct (register_cases h form db)
    as [(u0 & p0 & e & [Hu0 _] & [Hp0 _] & _ & Hn & _ & Hdb)|(Hc & _)];
    [|rewrite Hc in H200; discriminate].
  assert (u0 = u) as -> by congruence. assert (p0 = p) as -> by congruence.
  rewrite Hdb.
  assert (Hfound : first_named (db ++ [mkUser u (h p) e]) u
                   = Some (mkUser u (h p) e)).
  { by apply (first_named_last db (mkUser u (h p) e)). }
  split.
  - unfold get_pw, hash_pw. by rewrite Hfound.
  - intros h' form' Hu'.
    destruct (register_cases h' form' (db ++ [mkUser u (h p) e]))
      as [(u1 & p1 & e1 & [Hu1 _] & _ & _ & Hn1 & _)|(Hc & Hdb' & _)];
      [|done].
    assert (u1 = u) as -> by congruence. congruence.
Qed.

(** * The further properties at concrete inputs *)

Lemma load_stack_balanced_witness :
  module_stack (snd (Require_call 5 ex_marking ex_state 0 "a" true)) = []
  /\ current_module (snd (Require_call 5 ex_marking ex_state 0 "a" true)) = None.
Proof.
  destruct (load_stack_balanced 5 ex_marking ex_state) as [Hcall _].
  apply (Hcall 0 "a" true (Ret (VNamespace 0))).
  - apply pair_fst. vm_compute. reflexivity.
  - discriminate.
Defined.

Lemma Context_resolve_identity_witness :
  modules (snd (Context_resolve ex_chain_env ex_cached (inl "a") None []))
    !! "/a.py" = Some 0.
Proof.
  destruct (Context_resolve_identity ex_chain_env ex_cached (inl "a") None []
              (Ret 0)
              (snd (Context_resolve ex_chain_env ex_cached (inl "a") None [])))
    as [Hkeep _].
  - apply pair_fst. reflexivity.
  - apply Hkeep. reflexivity.
Defined.

Lemma ex_failed_finished :
  finished 5 ex_marking ex_failed
    (snd (Require_call 5 ex_marking ex_failed 0 "b" true)).
Proof.
  left. exists 0, "b", true, (Ret VNone). split; [|discriminate].
  apply pair_fst. vm_compute. reflexivity.
Defined.

Lemma marked_module_not_reloaded_witness :
  count_loads 0 (snd (Require_call 5 ex_marking ex_failed 0 "b" true))
  = count_loads 0 ex_failed.
Proof.
  destruct (marked_module_not_reloaded 5 ex_marking ex_failed _
              ex_failed_finished 0) as (_ & _ & Hcount).
  apply Hcount. left. reflexivity.
Defined.

Lemma eviction_only_on_failure_witness :
  modules (snd (Require_call 5 ex_marking ex_cached 0 "b" true)) !! "/a.py"
  = Some 0
  \/ exists m,
       exception (heap ex_cached m) = None
       /\ exception (heap (snd (Require_call 5 ex_marking ex_cached 0 "b" true)) m)
          <> None.
Proof.
  destruct (eviction_only_on_failure 5 ex_marking ex_cached
              (snd (Require_call 5 ex_marking ex_cached 0 "b" true)))
    as [Hkeep _].
  - left. exists 0, "b", true, (Ret VNone). split; [|discriminate].
    apply pair_fst. vm_compute. reflexivity.
  - apply Hkeep. reflexivity.
Defined.

Lemma try_without_load_witness :
  load_log (snd (Require_try_ 5 ex_marking ex_state 0 ["x"; "a"] false true))
  = load_log ex_state.
Proof.
  destruct (try_without_load 5 ex_marking ex_state 0 ["x"; "a"] true
              (Ret (VModule 0))
              (snd (Require_try_ 5 ex_marking ex_state 0 ["x"; "a"] false true)))
    as (_ & _ & _ & Hlog & _).
  - apply pair_fst. vm_compute. reflexivity.
  - exact Hlog.
Defined.



Lemma register_outcome_witness :
  code (fst (register ex_hash ex_form ex_users)) = 200
  /\ code (fst (register ex_hash ex_short_form ex_users)) = 400.
Proof.
  split.
  - destruct (register_outcome ex_hash ex_form ex_users) as [[_ Hok] _].
    apply Hok. exists (text "alice"), (text "secret1"), (text "a@b.c").
    repeat split; try reflexivity; simpl; try lia.
    repeat constructor. discriminate.
  - destruct (register_outcome ex_hash ex_short_form ex_users) as (_ & _ & Hno).
    apply Hno. vm_compute. discriminate.
Defined.

Lemma register_unique_names_witness :
  length (snd (register ex_hash ex_form ex_users)) = 2
  /\ NoDup (map name (snd (register ex_hash ex_form ex_users))).
Proof.
  split; [reflexivity|].
  apply register_unique_names. simpl. apply NoDup_singleton.
Defined.

Lemma register_then_login_witness :
  get_pw (snd (register ex_hash ex_form ex_users)) (text "alice")
  = Some (text "h:secret1").
Proof.
  exact (proj1 (register_then_login ex_hash ex_form ex_users
                  (text "alice") (text "secret1") eq_refl eq_refl eq_refl)).
Defined.

(** Asked for [a] again after all that, the facade answers from its
    cache. *)
Lemma Require_resolve_memo_witness :
  cache (requires ex_memo_later 0) !! "a" = Some 0
  /\ forall W', Require_resolve W' ex_memo_later 0 "a" = (Ret 0, ex_memo_later).
Proof.
  destruct (Require_resolve_memo ex_marking ex_memo_resolved 0 "a")
    as (_ & _ & _ & _ & Hlater).
  apply (Hlater 0 ex_memo_later).
  - vm_compute. reflexivity.
  - apply (later_step ex_marking ex_memo_resolved ex_memo_resolved ex_memo_later);
      [apply later_now|].
    left. exists 5. left. exists 0, "b", true, (Ret VNone).
    split; [|discriminate]. unfold ex_memo_later.
    apply pair_fst. vm_compute. reflexivity.
  - vm_compute. reflexivity.
Defined.
